(** * xai_efficiency: Morris Sensitivity Analysis and Grad-CAM layer dispatch

    A shallow embedding of

      - [xai_methods/Local_Perturbation/Morris_Sensitivity_Analysis.py]
        ([generate_attribution], lines 10-81), and
      - [xai_methods/Local_Backpropagation/Grad_CAM.py]
        ([generate_attribution], lines 12-44).

    Conventions of the embedding.

    - Tensor scalars are exact rationals ([Q]).  Rounding, NaN and the
      infinities of IEEE floats are outside the model; in particular a
      division by a zero [delta] yields [0] here (Rocq's [Qdiv]) where
      torch yields an infinity or NaN.
    - Python integers are [Z]; [//] is [Z.div] (both round to minus
      infinity) and raises [ZeroDivisionError] on a zero divisor.
    - Tensors that the code shares and mutates in place (the input image
      and its clones) live in a store; a reference is an index into it.
      The store only grows: Python's garbage collection is not modelled.
    - Exceptions are values: a computation returns [Ok v] or [Raise e]
      together with the final store.
    - [F.softmax(model(x), dim=1)] is one opaque scoring call that yields the
      row of class probabilities; every such call is recorded in a log
      together with the gradient mode it ran under. *)

From Stdlib Require Import ZArith QArith Qround Qabs Qminmax Lqa Lia String.
From stdpp Require Import base list.

Set Default Proof Using "Type".

(** ** Python values and exceptions *)

Inductive exn : Type :=
  | ZeroDivisionError
  | IndexError
  | StopIteration
  | RuntimeError (msg : string)
  | ValueError (msg : string).

Inductive result (A : Type) : Type :=
  | Ok (a : A)
  | Raise (e : exn).
Arguments Ok {A} a.
Arguments Raise {A} e.

(** [range(n)] for a Python integer [n]: empty when [n <= 0]. *)
Definition range (n : Z) : list Z := Z.of_nat <$> seq 0 (Z.to_nat n).

(** Index normalisation of Python and torch: a negative index counts from
    the end, anything outside [-len, len) is an error. *)
Definition norm_index (len : nat) (k : Z) : option nat :=
  if (0 <=? k)%Z then
    (if (k <? Z.of_nat len)%Z then Some (Z.to_nat k) else None)
  else
    (if (- Z.of_nat len <=? k)%Z then Some (Z.to_nat (Z.of_nat len + k)) else None).

Definition py_index {A : Type} (l : list A) (k : Z) : option A :=
  i ← norm_index (length l) k; l !! i.

(** Bound normalisation of a slice [a:b]: negative bounds count from the
    end and every bound is clamped to [0, len]; slicing never raises. *)
Definition slice_bound (len : nat) (k : Z) : nat :=
  if (k <? 0)%Z then Z.to_nat (Z.max 0 (k + Z.of_nat len))
  else Z.to_nat (Z.min k (Z.of_nat len)).

Definition in_slice (len : nat) (a b : Z) (idx : nat) : bool :=
  (slice_bound len a <=? idx)%nat && (idx <? slice_bound len b)%nat.

(** [sum(effects)]: Python folds [+] from the left, starting at [0]. *)
Definition py_sum (l : list Q) : Q := foldl Qplus 0%Q l.

(** Comparison [x > y] on scalars. *)
Definition Qgtb (x y : Q) : bool :=
  match (x ?= y)%Q with Gt => true | _ => false end.

(** ** Tensors and the store *)

(** An image tensor of shape [1, C, H, W]: the batch dimension is fixed to
    one and left implicit; [pixels] is indexed channel, row, column. *)
Record tensor : Type := Tensor {
  height : nat;
  width : nat;
  pixels : list (list (list Q))
}.

(** A 2-D tensor such as the per-patch heatmap. *)
Abbreviation grid := (list (list Q)).

(** What [squeeze()] may return: every dimension of size one is dropped,
    so the rank of the result depends on the shape. *)
Inductive ndarray : Type :=
  | Scalar (v : Q)
  | Vec (l : list Q)
  | Mat (g : grid).

Definition loc : Type := nat.

Record state : Type := State {
  heap : list tensor;              (* allocated image tensors *)
  grad_enabled : bool;             (* torch's global gradient mode *)
  log : list (tensor * bool)       (* forward passes: input, gradient mode *)
}.

(** A scoring model: called on a tensor, it returns the probability row
    or raises; it may also write to its input in place, so it returns the
    contents the input is left with. *)
Definition module : Type := tensor → result (list Q) * tensor.

(** A model that leaves its input as it found it. *)
Definition pure_module (f : tensor → result (list Q)) : module := λ t, (f t, t).

(** ** The state and exception monad *)

Definition M (A : Type) : Type := state → result A * state.

Definition ret {A : Type} (a : A) : M A := λ s, (Ok a, s).

Definition raise {A : Type} (e : exn) : M A := λ s, (Raise e, s).

Definition bind {A B : Type} (m : M A) (k : A → M B) : M B :=
  λ s, match m s with
       | (Ok a, s') => k a s'
       | (Raise e, s') => (Raise e, s')
       end.

Notation "x <- m ;; k" := (bind m (λ x, k))
  (at level 100, m at next level, right associativity).

(** A [for] loop over a list, threading the variables the body updates. *)
Fixpoint for_each {A S : Type} (xs : list A) (body : A → S → M S) (acc : S) : M S :=
  match xs with
  | [] => ret acc
  | x :: xs' => acc' <- body x acc ;; for_each xs' body acc'
  end.

Definition deref (l : loc) : M tensor :=
  λ s, match heap s !! l with
       | Some t => (Ok t, s)
       | None => (Raise (RuntimeError "invalid tensor reference"), s)
       end.

Definition store (l : loc) (t : tensor) : M unit :=
  λ s, (Ok tt, {| heap := <[l := t]> (heap s);
                  grad_enabled := grad_enabled s; log := log s |}).

(** [t.clone()]: a fresh tensor with the same contents. *)
Definition clone (l : loc) : M loc :=
  t <- deref l ;;
  λ s, (Ok (length (heap s)),
        {| heap := heap s ++ [t];
           grad_enabled := grad_enabled s; log := log s |}).

(** [with torch.no_grad(): body]: the mode is restored on every exit. *)
Definition no_grad {A : Type} (body : M A) : M A :=
  λ s, let '(r, s') := body {| heap := heap s; grad_enabled := false; log := log s |} in
       (r, {| heap := heap s'; grad_enabled := grad_enabled s; log := log s' |}).

(** [F.softmax(model(x), dim=1)]: one forward pass, recorded in the log. *)
Definition forward (model : module) (l : loc) : M (list Q) :=
  λ s, match heap s !! l with
       | Some t =>
           let '(r, t') := model t in
           (r, {| heap := <[l := t']> (heap s); grad_enabled := grad_enabled s;
                  log := log s ++ [(t, grad_enabled s)] |})
       | None => (Raise (RuntimeError "invalid tensor reference"), s)
       end.

(** [probs[0, c]] *)
Definition select_class (probs : list Q) (c : Z) : M Q :=
  match py_index probs c with
  | Some p => ret p
  | None => raise IndexError
  end.

Definition py_floordiv (a b : Z) : M Z :=
  if (b =? 0)%Z then raise ZeroDivisionError else ret (a / b)%Z.

(** [a / n] for a Python float [a] and a Python int [n]. *)
Definition py_truediv (a : Q) (n : Z) : M Q :=
  if (n =? 0)%Z then raise ZeroDivisionError else ret (a / inject_Z n)%Q.

(** [torch.zeros((h, w))] *)
Definition zeros (h w : Z) : M grid :=
  if ((h <? 0) || (w <? 0))%Z
  then raise (RuntimeError "Trying to create tensor with negative dimension")
  else ret (replicate (Z.to_nat h) (replicate (Z.to_nat w) 0%Q)).

(** [g[i, j] = v] *)
Definition setitem (g : grid) (i j : Z) (v : Q) : M grid :=
  match norm_index (length g) i with
  | Some y =>
      match g !! y with
      | Some row =>
          match norm_index (length row) j with
          | Some x => ret (<[y := <[x := v]> row]> g)
          | None => raise IndexError
          end
      | None => raise IndexError
      end
  | None => raise IndexError
  end.

(** [t[:, :, r0:r1, c0:c1] += delta] on the contents of a tensor. *)
Definition iadd_region (delta : Q) (r0 r1 c0 c1 : Z) (t : tensor) : tensor :=
  {| height := height t;
     width := width t;
     pixels :=
       imap (λ y row,
              if in_slice (height t) r0 r1 y
              then imap (λ x v, if in_slice (width t) c0 c1 x
                                then (v + delta)%Q else v) row
              else row)
       <$> pixels t |}.

(** The same, in place on the tensor that [l] refers to. *)
Definition iadd_slice (l : loc) (r0 r1 c0 c1 : Z) (delta : Q) : M unit :=
  t <- deref l ;; store l (iadd_region delta r0 r1 c0 c1 t).

(** [g.min()] and [g.max()] over all elements; torch raises on an empty
    tensor. *)
Definition tensor_min (g : grid) : M Q :=
  match concat g with
  | [] => raise (RuntimeError "min(): Expected reduction dim to be specified for input.numel() == 0")
  | x :: xs => ret (foldl Qmin x xs)
  end.

Definition tensor_max (g : grid) : M Q :=
  match concat g with
  | [] => raise (RuntimeError "max(): Expected reduction dim to be specified for input.numel() == 0")
  | x :: xs => ret (foldl Qmax x xs)
  end.

(** ** Bilinear upsampling *)

(** Modelled from the spec: [F.interpolate(x, size=(H, W), mode='bilinear',
    align_corners=False)] is torch library code outside this repository.
    The model follows the spec's "interpolated sample centers, not
    corner-aligned": along each axis the output index [dst] is mapped to the
    source coordinate [(dst + 1/2) * in/out - 1/2], clamped below at [0];
    the two neighbours are its floor and the next index (clamped to the last
    one), weighted by the fractional part. *)
Definition source_coord (in_size out_size dst : nat) : Q :=
  let scale := (inject_Z (Z.of_nat in_size) / inject_Z (Z.of_nat out_size))%Q in
  let src := (scale * (inject_Z (Z.of_nat dst) + (1 # 2)) - (1 # 2))%Q in
  if Qgtb 0 src then 0%Q else src.

Definition low_index (in_size out_size dst : nat) : nat :=
  Z.to_nat (Qfloor (source_coord in_size out_size dst)).

Definition high_index (in_size out_size dst : nat) : nat :=
  let i0 := low_index in_size out_size dst in
  if (i0 <? in_size - 1)%nat then (i0 + 1)%nat else i0.

Definition high_weight (in_size out_size dst : nat) : Q :=
  let src := source_coord in_size out_size dst in
  (src - inject_Z (Qfloor src))%Q.

Definition cell (g : grid) (y x : nat) : Q :=
  default 0%Q (row ← g !! y; row !! x).

Definition interpolate_bilinear (g : grid) (H W : nat) : grid :=
  let in_h := length g in
  let in_w := length (default [] (head g)) in
  (λ y,
    let h0 := low_index in_h H y in
    let h1 := high_index in_h H y in
    let lh := high_weight in_h H y in
    (λ x,
      let w0 := low_index in_w W x in
      let w1 := high_index in_w W x in
      let lw := high_weight in_w W x in
      ((1 - lh) * ((1 - lw) * cell g h0 w0 + lw * cell g h0 w1)
       + lh * ((1 - lw) * cell g h1 w0 + lw * cell g h1 w1))%Q)
    <$> seq 0 W)
  <$> seq 0 H.

(** [x.squeeze()] of a tensor of shape [1, 1, H, W] holding [g]: both
    leading dimensions go, and so does every spatial dimension of size one. *)
Definition squeeze (H W : nat) (g : grid) : ndarray :=
  match H, W with
  | 1%nat, 1%nat => Scalar (cell g 0 0)
  | 1%nat, _ => Vec (default [] (head g))
  | _, 1%nat => Vec ((λ row, default 0%Q (head row)) <$> g)
  | _, _ => Mat g
  end.

(** ** Morris Sensitivity Analysis: [generate_attribution] *)

(** Lines 31-33 and 55-57: the probability of the target class, computed
    under [torch.no_grad()]. *)
Definition class_prob (model : module) (x : loc) (predicted_class : Z) : M Q :=
  no_grad (probs <- forward model x ;; select_class probs predicted_class).

(** Lines 47-61: one perturbation sample of patch [(i, j)]. *)
Definition sample_effect (model : module) (image : loc) (predicted_class : Z)
    (patch_size : Z) (delta : Q) (orig_prob : Q) (i j : Z)
    (effects : list Q) : M (list Q) :=
  perturbed_image <- clone image ;;
  _ <- iadd_slice perturbed_image
         (i * patch_size) ((i + 1) * patch_size)
         (j * patch_size) ((j + 1) * patch_size) delta ;;
  new_prob <- class_prob model perturbed_image predicted_class ;;
  let effect := ((new_prob - orig_prob) / delta)%Q in
  ret (effects ++ [effect]).

(** Lines 46-64: the body of the two patch loops. *)
Definition patch_body (model : module) (image : loc) (predicted_class : Z)
    (patch_size num_samples : Z) (delta : Q) (orig_prob : Q) (i j : Z)
    (heatmap : grid) : M grid :=
  effects <- for_each (range num_samples)
               (λ _, sample_effect model image predicted_class patch_size
                       delta orig_prob i j) [] ;;
  avg <- py_truediv (py_sum effects) (Z.of_nat (length effects)) ;;
  setitem heatmap i j avg.

(** Lines 44-64: patches in row-major order. *)
Definition patch_sweep (model : module) (image : loc) (predicted_class : Z)
    (patch_size num_samples : Z) (delta : Q) (orig_prob : Q)
    (num_patches_h num_patches_w : Z) (heatmap : grid) : M grid :=
  for_each (range num_patches_h)
    (λ i, for_each (range num_patches_w)
            (λ j, patch_body model image predicted_class patch_size
                    num_samples delta orig_prob i j))
    heatmap.

Definition eps : Q := 1 # 100000000.

(** An element-wise operation on a 2-D tensor. *)
Definition grid_map (f : Q → Q) (g : grid) : grid :=
  (λ row : list Q, f <$> row) <$> g.

(** Lines 67-74: absolute value and min-max normalisation. *)
Definition normalize (heatmap : grid) : M grid :=
  let heatmap := grid_map Qabs heatmap in
  heat_min <- tensor_min heatmap ;;
  heat_max <- tensor_max heatmap ;;
  if Qgtb (heat_max - heat_min) eps
  then ret (grid_map (λ v, ((v - heat_min) / (heat_max - heat_min))%Q) heatmap)
  else ret (grid_map (λ _, 0%Q) heatmap).

(** Lines 77-79: upsampling to the image size and [squeeze()]. *)
Definition upsample (H W : nat) (heatmap : grid) : ndarray :=
  squeeze H W (interpolate_bilinear heatmap H W).

(** Lines 10-81.  [model.eval()] only switches the mode of the opaque
    scoring model and is not represented. *)
Definition generate_attribution (image : loc) (predicted_class : Z)
    (model : module) (patch_size num_samples : Z) (delta : Q) : M ndarray :=
  orig_prob <- class_prob model image predicted_class ;;
  img <- deref image ;;
  let H := height img in
  let W := width img in
  num_patches_h <- py_floordiv (Z.of_nat H) patch_size ;;
  num_patches_w <- py_floordiv (Z.of_nat W) patch_size ;;
  heatmap <- zeros num_patches_h num_patches_w ;;
  heatmap <- patch_sweep model image predicted_class patch_size num_samples
               delta orig_prob num_patches_h num_patches_w heatmap ;;
  heatmap <- normalize heatmap ;;
  ret (upsample H W heatmap).

(** The same routine with the patches visited in a given order instead of
    the two nested [range] loops (used to state order independence). *)
Definition row_major (num_patches_h num_patches_w : Z) : list (Z * Z) :=
  i ← range num_patches_h; j ← range num_patches_w; [(i, j)].

Definition patch_sweep_in (order : list (Z * Z)) (model : module) (image : loc)
    (predicted_class : Z) (patch_size num_samples : Z) (delta : Q)
    (orig_prob : Q) (heatmap : grid) : M grid :=
  for_each order
    (λ ij, patch_body model image predicted_class patch_size num_samples
             delta orig_prob ij.1 ij.2)
    heatmap.

Definition generate_attribution_in (order : Z → Z → list (Z * Z)) (image : loc)
    (predicted_class : Z) (model : module) (patch_size num_samples : Z)
    (delta : Q) : M ndarray :=
  orig_prob <- class_prob model image predicted_class ;;
  img <- deref image ;;
  let H := height img in
  let W := width img in
  num_patches_h <- py_floordiv (Z.of_nat H) patch_size ;;
  num_patches_w <- py_floordiv (Z.of_nat W) patch_size ;;
  heatmap <- zeros num_patches_h num_patches_w ;;
  heatmap <- patch_sweep_in (order num_patches_h num_patches_w) model image
               predicted_class patch_size num_samples delta orig_prob heatmap ;;
  heatmap <- normalize heatmap ;;
  ret (upsample H W heatmap).

(** ** Example inputs *)

Definition img22 : tensor :=
  Tensor 2 2 [ [[1#2; 1#4]; [0; 1]]; [[1#2; 1#4]; [0; 1]]; [[1#2; 1#4]; [0; 1]] ]%Q.

Definition s0 (t : tensor) : state := State [t] true [].

(** ** Notions used in the statements *)

Definition lookup2 (g : grid) (y x : nat) : option Q := row ← g !! y; row !! x.

(** The effect of [g[y, x] = v] on the contents. *)
Definition grid_put (g : grid) (y x : nat) (v : Q) : grid :=
  match g !! y with
  | Some row => <[y := <[x := v]> row]> g
  | None => g
  end.

Definition rect (nh nw : nat) (g : grid) : Prop :=
  length g = nh ∧ ∀ y row, g !! y = Some row → length row = nw.

(** [scores f c sc]: the scoring function [f] returns, on every input, a
    probability row whose entry for class [c] is [sc]. *)
Definition scores (f : tensor → result (list Q)) (c : Z) (sc : tensor → Q) : Prop :=
  ∀ t, ∃ probs, f t = Ok probs ∧ py_index probs c = Some (sc t).

(** The perturbed clone of [img] for patch [(i, j)]. *)
Definition perturbed (img : tensor) (patch_size : Z) (delta : Q) (i j : Z) : tensor :=
  iadd_region delta (i * patch_size) ((i + 1) * patch_size)
    (j * patch_size) ((j + 1) * patch_size) img.

(** The elementary effect of one sample of patch [(i, j)]. *)
Definition elementary_effect (sc : tensor → Q) (img : tensor) (patch_size : Z)
    (delta : Q) (i j : Z) : Q :=
  ((sc (perturbed img patch_size delta i j) - sc img) / delta)%Q.

(** The average of a list, as line 64 computes it. *)
Definition average (effects : list Q) : Q :=
  (py_sum effects / inject_Z (Z.of_nat (length effects)))%Q.

(** The value stored for patch [(i, j)]. *)
Definition patch_value (sc : tensor → Q) (img : tensor) (patch_size num_samples : Z)
    (delta : Q) (i j : Z) : Q :=
  average (replicate (Z.to_nat num_samples)
             (elementary_effect sc img patch_size delta i j)).

(** The grid after the patches of [order] have been written into [g]. *)
Definition swept (sc : tensor → Q) (img : tensor) (patch_size num_samples : Z)
    (delta : Q) (order : list (Z * Z)) (g : grid) : grid :=
  foldl (λ g ij, grid_put g (Z.to_nat ij.1) (Z.to_nat ij.2)
                   (patch_value sc img patch_size num_samples delta ij.1 ij.2))
        g order.

(** The clones made while sweeping [order], in allocation order. *)
Definition clones (img : tensor) (patch_size num_samples : Z) (delta : Q)
    (order : list (Z * Z)) : list tensor :=
  ij ← order; replicate (Z.to_nat num_samples) (perturbed img patch_size delta ij.1 ij.2).

Definition no_grad_pass (t : tensor) : tensor * bool := (t, false).

Definition flat_min (l : list Q) : Q :=
  match l with [] => 0%Q | x :: xs => foldl Qmin x xs end.

Definition flat_max (l : list Q) : Q :=
  match l with [] => 0%Q | x :: xs => foldl Qmax x xs end.

(** What lines 67-74 leave in [heatmap] when it has at least one entry. *)
Definition normalized (heatmap : grid) : grid :=
  let a := grid_map Qabs heatmap in
  let heat_min := flat_min (concat a) in
  let heat_max := flat_max (concat a) in
  if Qgtb (heat_max - heat_min) eps
  then grid_map (λ v, ((v - heat_min) / (heat_max - heat_min))%Q) a
  else grid_map (λ _, 0%Q) a.

(** The grid that the patch loops of [generate_attribution] leave behind
    (before line 67). *)
Definition raw_heatmap (sc : tensor → Q) (img : tensor) (patch_size num_samples : Z)
    (delta : Q) : grid :=
  let num_patches_h := (Z.of_nat (height img) / patch_size)%Z in
  let num_patches_w := (Z.of_nat (width img) / patch_size)%Z in
  swept sc img patch_size num_samples delta
    (row_major num_patches_h num_patches_w)
    (replicate (Z.to_nat num_patches_h) (replicate (Z.to_nat num_patches_w) 0%Q)).

Definition values (a : ndarray) : list Q :=
  match a with
  | Scalar v => [v]
  | Vec l => l
  | Mat g => concat g
  end.

Definition unit_interval (v : Q) : Prop := (0 <= v <= 1)%Q.

Definition pixel (t : tensor) (ch y x : nat) : option Q :=
  plane ← pixels t !! ch; row ← plane !! y; row !! x.

(** The slice of patch [(i, j)] is the block of rows [i*p .. (i+1)*p - 1]
    and columns [j*p .. (j+1)*p - 1], in every channel. *)
Definition in_patch (patch_size i j : Z) (y x : nat) : Prop :=
  (i * patch_size ≤ Z.of_nat y < (i + 1) * patch_size)%Z
  ∧ (j * patch_size ≤ Z.of_nat x < (j + 1) * patch_size)%Z.

(** [stateless m]: [m] neither reads nor writes the state. *)
Definition stateless {A : Type} (m : M A) : Prop := ∃ r, ∀ s, m s = (r, s).

(** [keeps I m Q]: started in a store satisfying [I], [m] ends - normally
    or with an exception - in a store satisfying [I], and a value it
    returns satisfies [Q]. *)
Definition keeps {A : Type} (I : list tensor → Prop) (m : M A) (Q : A → Prop) : Prop :=
  ∀ s, I (heap s) → I (heap (m s).2) ∧ ∀ a, (m s).1 = Ok a → Q a.

(** [agree I1 I2 m1 m2]: started in stores satisfying [I1] and [I2], the
    two computations end with the same outcome, and keep [I1] and [I2]. *)
Definition agree {A : Type} (I1 I2 : list tensor → Prop) (m1 m2 : M A) : Prop :=
  ∀ s1 s2, I1 (heap s1) → I2 (heap s2) →
    (m1 s1).1 = (m2 s2).1 ∧ I1 (heap (m1 s1).2) ∧ I2 (heap (m2 s2).2).

Definition any {A : Type} : A → Prop := λ _, True.

Definition leaves_input (model : module) : Prop := ∀ t, (model t).2 = t.

Definition holds (l : loc) (t : tensor) : list tensor → Prop := λ h, h !! l = Some t.

Definition prob_of (f : tensor → result (list Q)) (c : Z) (t : tensor) : result Q :=
  match f t with
  | Ok probs =>
      match py_index probs c with
      | Some p => Ok p
      | None => Raise IndexError
      end
  | Raise e => Raise e
  end.

(** Example inputs, continued.  A scoring function defined on every tensor:
    the first class gets a weighted sum of two pixels of the first channel. *)
Definition score_two_pixels (t : tensor) : Q :=
  (default 0 (pixel t 0 0 0) / 4 + default 0 (pixel t 0 0 1) / 2)%Q.

Definition two_pixel_model (t : tensor) : result (list Q) :=
  Ok [score_two_pixels t; (1 - score_two_pixels t)%Q].

(** A 3x3 image: with patch size 2 one row and one column are left over. *)
Definition img33 : tensor :=
  Tensor 3 3 [ [[1#2; 1#4; 0]; [0; 1; 1#8]; [1; 1; 1]] ]%Q.

(** An image of height one. *)
Definition img12 : tensor := Tensor 1 2 [ [[1#2; 1#3]] ]%Q.

(** What C1 asks for: the run fails and no forward pass has been logged. *)
Definition fails_before_scoring {A : Type} (s : state) (r : result A * state) : Prop :=
  (∃ e, r.1 = Raise e) ∧ log r.2 = log s.

Definition sample_grid : grid := [[(-1) # 2; 1 # 4]; [0; 3 # 2]]%Q.

(** The patches in reverse order. *)
Definition reversed (nh nw : Z) : list (Z * Z) := reverse (row_major nh nw).

(** * Grad-CAM: the choice of the target layer *)

Module Grad_CAM.

(** The torchvision model classes that lines 23-38 test for. *)
Inductive family : Type :=
  | ConvNeXt | EfficientNet | ResNet | VisionTransformer
  | SwinTransformer | RegNet | MobileNetV3 | DenseNet.

#[global] Instance family_eq_dec : EqDecision family.
Proof. solve_decision. Defined.

(** The order in which the [isinstance] tests are made. *)
Definition families : list family :=
  [ConvNeXt; EfficientNet; ResNet; VisionTransformer;
   SwinTransformer; RegNet; MobileNetV3; DenseNet].

(** A model object, as far as the dispatch looks at it: the name of its
    class, and which of the eight torchvision classes that class is or
    derives from. *)
Record nn_module : Type := {
  type_name : string;
  bases : list family
}.

Definition isinstance (model : nn_module) (k : family) : bool :=
  bool_decide (k ∈ bases model).

(** A sub-module of the model, written as the path of attribute and index
    accesses that selects it: [model.features[-1]] is
    [[Attr "features"; Item (-1)]]. *)
Inductive access : Type :=
  | Attr (name : string)
  | Item (index : Z).

Definition layer : Type := list access.

(** Lines 22-40. *)
Definition select_layer (model : nn_module) : result layer :=
  if isinstance model ConvNeXt then
    Ok [Attr "features"; Item (-1)]
  else if isinstance model EfficientNet then
    Ok [Attr "features"; Item (-1)]
  else if isinstance model ResNet then
    Ok [Attr "layer4"; Item (-1)]
  else if isinstance model VisionTransformer then
    Ok [Attr "encoder"; Attr "layers"; Item (-1)]
  else if isinstance model SwinTransformer then
    Ok [Attr "features"; Item (-1); Item (-1); Attr "mlp"; Item 0]
  else if isinstance model RegNet then
    Ok [Attr "trunk_output"]
  else if isinstance model MobileNetV3 then
    Ok [Attr "features"; Item (-1)]
  else if isinstance model DenseNet then
    Ok [Attr "features"; Item (-1)]
  else
    Raise (ValueError
             (String.append "Unsupported model architecture: " (type_name model))).

(** Lines 12-44.  [attribute model layer image target] stands for captum's
    [LayerGradCam(model, layer).attribute(image, target=target)]; the second
    component of the outcome lists the layers it was run on. *)
Definition generate_attribution {A : Type}
    (attribute : nn_module → layer → tensor → Z → result A)
    (image : tensor) (predicted_class : Z) (model : nn_module)
    (target_layer : option layer) : result A * list layer :=
  let chosen :=
    match target_layer with
    | None => select_layer model
    | Some l => Ok l
    end in
  match chosen with
  | Ok l => (attribute model l image predicted_class, [l])
  | Raise e => (Raise e, [])
  end.

(** The layer chosen for each family. *)
Definition layer_of (k : family) : layer :=
  match k with
  | ConvNeXt | EfficientNet | MobileNetV3 | DenseNet => [Attr "features"; Item (-1)]
  | ResNet => [Attr "layer4"; Item (-1)]
  | VisionTransformer => [Attr "encoder"; Attr "layers"; Item (-1)]
  | SwinTransformer => [Attr "features"; Item (-1); Item (-1); Attr "mlp"; Item 0]
  | RegNet => [Attr "trunk_output"]
  end.

End Grad_CAM.

(** * The other entry points of the two files *)

(** ** Classification *)

(** The index that [torch.max(output, 1)] reports for a row: that of its
    first maximal entry.  [best_i] and [best] are the index and value of the
    best entry so far, [i] the index of the head of [row]. *)
Fixpoint first_max_from (best_i : nat) (best : Q) (i : nat) (row : list Q) : nat :=
  match row with
  | [] => best_i
  | x :: row' =>
      if Qgtb x best then first_max_from i x (S i) row'
      else first_max_from best_i best (S i) row'
  end.

(** [_, predicted_class = torch.max(output, 1)]; torch raises on a row
    without entries. *)
Definition torch_max_index (output : list Q) : M Z :=
  match output with
  | [] => raise IndexError
  | x :: xs => ret (Z.of_nat (first_max_from 0 x 1 xs))
  end.

(** Morris lines 92-94, 111-113 and 179-181, Grad-CAM lines 56-58, 80-82
    and 159-161: the predicted class of an image.  The logits are not
    represented: a forward pass yields the probability row, and as softmax is
    strictly increasing the first maximal logit and the first maximal
    probability sit at the same index. *)
Definition predict (model : module) (image : loc) : M Z :=
  no_grad (output <- forward model image ;; torch_max_index output).

(** [torch.randn(1, 3, H, W)]: a new tensor; [noise] stands for the values
    drawn. *)
Definition randn (H W : nat) (noise : list (list (list Q))) : M loc :=
  λ s, (Ok (length (heap s)),
        {| heap := heap s ++ [Tensor H W noise];
           grad_enabled := grad_enabled s; log := log s |}).

(** ** Morris Sensitivity Analysis: [warm_up] (lines 84-95) *)

(** A model object as [warm_up] uses it: it is called on images, and it
    has parameters, each on some device. *)
Record torch_model : Type := {
  net : module;
  devices : list string       (* the device of each parameter, in order *)
}.

(** [next(model.parameters()).device]: the device of the first parameter;
    [next] raises [StopIteration] when the model has no parameter. *)
Definition first_device (model_devices : list string) : M string :=
  match model_devices with
  | [] => raise StopIteration
  | device :: _ => ret device
  end.

(** Tensors carry no device here, so the device found only matters through
    the lookup that finds it; [generate_attribution] runs with its default
    parameters. *)
Definition warm_up (noise : list (list (list Q))) (model : torch_model) : M unit :=
  device <- first_device (devices model) ;;
  dummy_image <- randn 224 224 noise ;;
  predicted_class <- predict (net model) dummy_image ;;
  _ <- generate_attribution dummy_image predicted_class (net model) 16 10 (1 # 20) ;;
  ret tt.

(** ** [measure_avg_time_across_images] (Morris lines 163-191, Grad-CAM
    lines 139-172: the same code in both files) *)

(** One turn of the loop.  [call model] is the model as a callable;
    [process_data_tuple] (of [utils.data_utils], outside these files) is a
    parameter; [timer k] is what the [k]-th call of [timeit.default_timer]
    during the measurement returns, and [ticks] counts the calls made so far.
    [torch.cuda.empty_cache()] has no effect on the model. *)
Definition timed_item {D L Mo A : Type} (call : Mo → module) (timer : nat → Q)
    (process_data_tuple : D → Mo → M (loc * L)) (model : Mo)
    (generate_attribution : loc → Z → Mo → M A)
    (data_item : D) (acc : list Q * nat) : M (list Q * nat) :=
  let times := acc.1 in
  let ticks := acc.2 in
  image_label <- process_data_tuple data_item model ;;
  let image := image_label.1 in
  predicted_class <- predict (call model) image ;;
  let start_time := timer ticks in
  _ <- generate_attribution image predicted_class model ;;
  let end_time := timer (S ticks) in
  ret (times ++ [(end_time - start_time)%Q], S (S ticks)).

Definition measure_avg_time_across_images {D L Mo A : Type} (call : Mo → module)
    (timer : nat → Q) (process_data_tuple : D → Mo → M (loc * L))
    (data_source : list D) (model : Mo)
    (generate_attribution : loc → Z → Mo → M A) : M (Q * list Q) :=
  acc <- for_each data_source
           (timed_item call timer process_data_tuple model generate_attribution)
           ([], 0%nat) ;;
  let times := acc.1 in
  avg_time_taken <- py_truediv (py_sum times) (Z.of_nat (length times)) ;;
  ret (avg_time_taken, times).

(** The attribution routine as the Morris script hands it to the harness:
    called with three arguments, it runs with its default parameters. *)
Definition morris_default (image : loc) (predicted_class : Z) (model : module) :
    M ndarray :=
  generate_attribution image predicted_class model 16 10 (1 # 20).

(** ** Morris Sensitivity Analysis: the heatmap as colour indices
    ([visualize_attribution], lines 126-127) *)

(** [x.astype(np.uint8)] for a float [x]: the fraction is discarded; when
    the integral part is not in [0, 255] the conversion is undefined, which
    is [None] here. *)
Definition astype_uint8 (x : Q) : option Z :=
  let k := (Qnum x ÷ QDen x)%Z in
  if ((0 <=? k) && (k <? 256))%Z then Some k else None.

(** [(heatmap_np * 255).astype(np.uint8)], element by element. *)
Definition heatmap_bytes (attribution : ndarray) : list (option Z) :=
  (λ v, astype_uint8 (v * 255)%Q) <$> values attribution.

(** ** Grad-CAM: [warm_up] and the map shown by [visualize_attribution] *)

Module Grad_CAM_run.

(** A model object: what calling it does, the devices of its parameters,
    and what its class is. *)
Record model_object : Type := {
  base : torch_model;
  kind : Grad_CAM.nn_module
}.

(** [generate_attribution(image, predicted_class, model)] on a stored
    image, with [target_layer] left at its default [None].  Forward and
    backward passes that captum makes inside [attribute] are not logged. *)
Definition generate_attribution {A : Type}
    (attribute : Grad_CAM.nn_module → Grad_CAM.layer → tensor → Z → result A)
    (image : loc) (predicted_class : Z) (model : model_object) : M A :=
  t <- deref image ;;
  match (Grad_CAM.generate_attribution attribute t predicted_class (kind model)
           None).1 with
  | Ok a => ret a
  | Raise e => raise e
  end.

(** Lines 47-59.  [requires_grad=True] is not represented. *)
Definition warm_up {A : Type}
    (attribute : Grad_CAM.nn_module → Grad_CAM.layer → tensor → Z → result A)
    (noise : list (list (list Q))) (model : model_object) : M unit :=
  device <- first_device (devices (base model)) ;;
  dummy_image <- randn 224 224 noise ;;
  predicted_class <- predict (net (base model)) dummy_image ;;
  _ <- generate_attribution attribute dummy_image predicted_class model ;;
  ret tt.

(** [x / m] on numpy floats never raises; with [m = 0] the quotient is not
    a finite number, which is [None] here. *)
Definition np_divide (x m : Q) : option Q :=
  if Qeq_bool m 0 then None else Some (x / m)%Q.

(** Lines 96-97 of [visualize_attribution]:
    [attribution = np.maximum(attribution, 0)] and
    [attribution /= attribution.max()]; numpy raises on an array without
    entries. *)
Definition relu_normalize (attribution : grid) : result (list (list (option Q))) :=
  let attribution := grid_map (λ v, Qmax v 0) attribution in
  match concat attribution with
  | [] => Raise (ValueError
                   "zero-size array to reduction operation maximum which has no identity")
  | x :: xs =>
      let peak := foldl Qmax x xs in
      Ok ((λ row : list Q, (λ v, np_divide v peak) <$> row) <$> attribution)
  end.

(** Line 98: [(attribution * 255).astype(np.uint8)], for one entry. *)
Definition colour_index (v : option Q) : option Z :=
  v ← v; astype_uint8 (v * 255)%Q.

End Grad_CAM_run.

(** ** Notions used in the further statements *)

(** [quiet m]: [m] leaves torch's gradient mode as it found it, and every
    forward pass it logs ran with gradients disabled. *)
Definition quiet {A : Type} (m : M A) : Prop :=
  ∀ s, grad_enabled (m s).2 = grad_enabled s
       ∧ ∃ new, log (m s).2 = log s ++ new ∧ Forall (λ e, e.2 = false) new.

(** [scoped m]: the same, except that a pass may also have run in the mode
    that [m] was started in. *)
Definition scoped {A : Type} (m : M A) : Prop :=
  ∀ s, grad_enabled (m s).2 = grad_enabled s
       ∧ ∃ new, log (m s).2 = log s ++ new
                ∧ Forall (λ e, e.2 = false ∨ e.2 = grad_enabled s) new.

(** The index of the first maximal entry of a row. *)
Definition first_max (row : list Q) : nat :=
  match row with
  | [] => 0%nat
  | x :: xs => first_max_from 0 x 1 xs
  end.

(** The rows of [f] all have [k] entries. *)
Definition rows_of_length (f : tensor → result (list Q)) (k : nat) : Prop :=
  ∀ t, ∃ probs, f t = Ok probs ∧ length probs = k.

(** The entry for class [c] of the row that [f] returns. *)
Definition class_score (f : tensor → result (list Q)) (c : Z) (t : tensor) : Q :=
  match f t with
  | Ok probs => default 0%Q (py_index probs c)
  | Raise _ => 0%Q
  end.

(** The durations that the harness reports for [n] items. *)
Definition durations (timer : nat → Q) (n : nat) : list Q :=
  (λ k, (timer (S (2 * k)) - timer (2 * k)%nat)%Q) <$> seq 0 n.

(** Further example inputs. *)
Definition three_way_model (t : tensor) : result (list Q) :=
  Ok [score_two_pixels t; (1 # 2)%Q; ((1 # 2) - score_two_pixels t)%Q].

Definition img_16_20 : tensor :=
  Tensor 16 20 [replicate 16 (replicate 20 (1 # 3)%Q)].

Definition stopwatch (k : nat) : Q := inject_Z (Z.of_nat (k * k)).

Definition stored_item (d : loc) (_ : module) : M (loc * unit) := ret (d, tt).

Definition three_way_net : torch_model :=
  {| net := pure_module three_way_model; devices := ["cpu"%string] |}.

Definition unknown_net : Grad_CAM_run.model_object :=
  {| Grad_CAM_run.base := three_way_net;
     Grad_CAM_run.kind := {| Grad_CAM.type_name := "MyNet"; Grad_CAM.bases := [] |} |}.

(** A draw for the dummy image of [warm_up]: three channels of 224 x 224
    values. *)
Definition noise_224 : list (list (list Q)) :=
  replicate 3 (replicate 224 (replicate 224 (1 # 2)%Q)).

(** The arithmetic mean in the spec's words, the sum of the values divided
    by their number; the sum is taken by structural recursion, independently
    of [py_sum]. *)
Fixpoint total (l : list Q) : Q :=
  match l with
  | [] => 0%Q
  | x :: l' => (x + total l')%Q
  end.

Definition arithmetic_mean (l : list Q) : Q :=
  (total l / inject_Z (Z.of_nat (length l)))%Q.

(** Two 2 x 5 images that differ in the last column only, which patches of
    size 2 do not cover, and a scoring function that looks at that column. *)
Definition img25_a : tensor :=
  Tensor 2 5 [ [[1#4; 0; 1#4; 0; 1#2]; [0; 0; 0; 0; 0]] ]%Q.

Definition img25_b : tensor :=
  Tensor 2 5 [ [[1#4; 0; 1#4; 0; 0]; [0; 0; 0; 0; 0]] ]%Q.

Definition remainder_score (t : tensor) : Q :=
  (default 0 (pixel t 0 0 0) * default 0 (pixel t 0 0 4)
   + default 0 (pixel t 0 0 2) / 4)%Q.

Definition remainder_model (t : tensor) : result (list Q) :=
  Ok [remainder_score t; (1 - remainder_score t)%Q].

(** Two images have the same size and the same pixels on the block that
    patches of size [patch_size] cover. *)
Definition same_covered_block (patch_size : Z) (a b : tensor) : Prop :=
  height a = height b ∧ width a = width b
  ∧ ∀ ch y x,
      (Z.of_nat y < Z.of_nat (height a) / patch_size * patch_size)%Z →
      (Z.of_nat x < Z.of_nat (width a) / patch_size * patch_size)%Z →
      pixel a ch y x = pixel b ch y x.

(** What "never reads pixels beyond the last full patch" (C8) asks for:
    two images that agree on the covered block get the same outcome. *)
Definition blind_to_remainder (f : tensor → result (list Q)) (c : Z)
    (patch_size num_samples : Z) (delta : Q) (a b : tensor) : Prop :=
  same_covered_block patch_size a b →
  (generate_attribution 0%nat c (pure_module f) patch_size num_samples delta
     (s0 a)).1
  = (generate_attribution 0%nat c (pure_module f) patch_size num_samples delta
       (s0 b)).1.

(** * Properties *)

(** ** Basic facts about the monad and the Python helpers *)

Lemma bind_ok {A B : Type} (m : M A) (k : A → M B) s a s' :
  m s = (Ok a, s') → bind m k s = k a s'.
Proof. unfold bind. by intros ->. Qed.

Lemma bind_raise {A B : Type} (m : M A) (k : A → M B) s e s' :
  m s = (Raise e, s') → bind m k s = (Raise e, s').
Proof. unfold bind. by intros ->. Qed.

Lemma for_each_app {A S : Type} (xs ys : list A) (body : A → S → M S) acc s :
  for_each (xs ++ ys) body acc s
  = bind (for_each xs body acc) (for_each ys body) s.
Proof.
  revert acc s. induction xs as [|x xs IH]; intros acc s; simpl.
  - done.
  - unfold bind in *. destruct (body x acc s) as [[a|e] s1]; [apply IH|done].
Qed.

(** Two nested loops visit the pairs in row-major order. *)
Lemma for_each_nested {A B S : Type} (xs : list A) (ys : list B)
    (body : A → B → S → M S) acc s :
  for_each xs (λ i, for_each ys (body i)) acc s
  = for_each (i ← xs; j ← ys; [(i, j)]) (λ ij, body ij.1 ij.2) acc s.
Proof.
  revert acc s. induction xs as [|x xs IH]; intros acc s; [reflexivity|].
  rewrite bind_cons, for_each_app. simpl. unfold bind.
  assert (Hin : ∀ acc s, for_each (ys ≫= λ j, [(x, j)]) (λ ij, body ij.1 ij.2) acc s
                         = for_each ys (body x) acc s).
  { clear. induction ys as [|y ys IHy]; intros acc s; [reflexivity|].
    simpl. unfold bind. destruct (body x y acc s) as [[a|e] s1]; [apply IHy|done]. }
  rewrite Hin. destruct (for_each ys (body x) acc s) as [[a|e] s1]; [apply IH|done].
Qed.

Lemma length_range n : length (range n) = Z.to_nat n.
Proof. unfold range. by rewrite length_fmap, length_seq. Qed.

Lemma elem_of_range n k : k ∈ range n ↔ (0 ≤ k < n)%Z.
Proof.
  unfold range. rewrite list_elem_of_fmap. split.
  - intros (i & -> & Hi). apply elem_of_seq in Hi. lia.
  - intros Hk. exists (Z.to_nat k). split; [lia|]. apply elem_of_seq. lia.
Qed.

Lemma elem_of_row_major nh nw i j :
  (i, j) ∈ row_major nh nw ↔ (0 ≤ i < nh)%Z ∧ (0 ≤ j < nw)%Z.
Proof.
  unfold row_major. rewrite list_elem_of_bind. split.
  - intros (i' & Hij & Hi). apply list_elem_of_bind in Hij as (j' & Hij & Hj).
    apply list_elem_of_singleton in Hij. simplify_eq.
    by rewrite <- !elem_of_range.
  - intros [Hi Hj]. exists i. rewrite elem_of_range. split; [|done].
    apply list_elem_of_bind. exists j. rewrite elem_of_range.
    split; [|done]. by apply list_elem_of_singleton.
Qed.

Lemma norm_index_nonneg len k :
  (0 ≤ k < Z.of_nat len)%Z → norm_index len k = Some (Z.to_nat k).
Proof.
  intros Hk. unfold norm_index.
  destruct (Z.leb_spec 0 k); [|lia]. by destruct (Z.ltb_spec k (Z.of_nat len)); [|lia].
Qed.

Lemma in_slice_nonneg len a b idx :
  (0 ≤ a)%Z → (0 ≤ b)%Z → idx < len →
  in_slice len a b idx = true ↔ (a ≤ Z.of_nat idx < b)%Z.
Proof.
  intros Ha Hb Hidx. unfold in_slice, slice_bound.
  destruct (Z.ltb_spec a 0); [lia|]. destruct (Z.ltb_spec b 0); [lia|].
  rewrite andb_true_iff, Nat.leb_le, Nat.ltb_lt. lia.
Qed.

(** ** Grids *)

Lemma rect_replicate nh nw v : rect nh nw (replicate nh (replicate nw v)).
Proof.
  split; [by rewrite length_replicate|].
  intros y row [-> _]%lookup_replicate. by rewrite length_replicate.
Qed.

Lemma rect_put nh nw g y x v : rect nh nw g → rect nh nw (grid_put g y x v).
Proof.
  intros [Hlen Hrows]. unfold grid_put. destruct (g !! y) as [row|] eqn:Hy; [|done].
  split; [by rewrite length_insert|].
  intros y' row' Hy'. destruct (decide (y = y')) as [<-|Hne].
  - rewrite list_lookup_insert_eq in Hy' by (by eapply lookup_lt_Some).
    simplify_eq. rewrite length_insert. eauto.
  - rewrite list_lookup_insert_ne in Hy' by done. eauto.
Qed.

Lemma rect_lookup2 nh nw g y x :
  rect nh nw g → y < nh → x < nw → is_Some (lookup2 g y x).
Proof.
  intros [Hlen Hrows] Hy Hx. unfold lookup2.
  destruct (lookup_lt_is_Some_2 g y) as [row Hrow]; [lia|].
  rewrite Hrow. simpl. apply lookup_lt_is_Some_2. by rewrite (Hrows _ _ Hrow).
Qed.

Lemma lookup2_put g y x v y' x' :
  lookup2 (grid_put g y x v) y' x'
  = (λ v0, if decide (y = y' ∧ x = x') then v else v0) <$> lookup2 g y' x'.
Proof.
  unfold lookup2, grid_put. destruct (g !! y) as [row|] eqn:Hy.
  - destruct (decide (y = y')) as [<-|Hne].
    + rewrite list_lookup_insert_eq by (by eapply lookup_lt_Some).
      rewrite Hy. simpl. destruct (decide (x = x')) as [<-|Hnx].
      * destruct (row !! x) eqn:Hx.
        -- rewrite list_lookup_insert_eq by (by eapply lookup_lt_Some).
           simpl. by rewrite decide_True.
        -- by rewrite (proj2 (list_lookup_insert_None row x v x) Hx).
      * rewrite list_lookup_insert_ne by done.
        destruct (row !! x'); simpl; [|done]. rewrite decide_False; [done|by intros [_ ?]].
    + rewrite list_lookup_insert_ne by done.
      destruct (g !! y') as [row'|]; simpl; [|done].
      destruct (row' !! x'); simpl; [|done]. rewrite decide_False; [done|by intros [? _]].
  - destruct (g !! y') as [row'|] eqn:Hy'; simpl; [|done].
    destruct (row' !! x'); simpl; [|done].
    rewrite decide_False; [done|]. intros [-> _]. congruence.
Qed.

Lemma grid_eq nh nw (g1 g2 : grid) :
  rect nh nw g1 → rect nh nw g2 →
  (∀ y x, lookup2 g1 y x = lookup2 g2 y x) → g1 = g2.
Proof.
  intros [Hl1 Hr1] [Hl2 Hr2] Heq. apply list_eq. intros y.
  destruct (g1 !! y) as [r1|] eqn:H1, (g2 !! y) as [r2|] eqn:H2.
  - f_equal. apply list_eq. intros x. specialize (Heq y x).
    unfold lookup2 in Heq. by rewrite H1, H2 in Heq.
  - apply lookup_lt_Some in H1. apply lookup_ge_None in H2. lia.
  - apply lookup_lt_Some in H2. apply lookup_ge_None in H1. lia.
  - done.
Qed.

(** ** Runs with a scoring function that succeeds *)

Lemma clones_cons img patch_size num_samples delta ij order :
  clones img patch_size num_samples delta (ij :: order)
  = replicate (Z.to_nat num_samples) (perturbed img patch_size delta ij.1 ij.2)
    ++ clones img patch_size num_samples delta order.
Proof. unfold clones. by rewrite bind_cons. Qed.

Section runs.
Context (f : tensor → result (list Q)) (c : Z) (sc : tensor → Q).
Context (Hsc : scores f c sc).
Context (image : loc) (img : tensor) (patch_size num_samples : Z) (delta : Q).

Lemma class_prob_run h g lg x t :
  h !! x = Some t →
  class_prob (pure_module f) x c (State h g lg)
  = (Ok (sc t), State h g (lg ++ [(t, false)])).
Proof using Hsc.
  intros Hx. destruct (Hsc t) as (probs & Hf & Hc).
  unfold class_prob, no_grad, bind, forward, pure_module, select_class. simpl.
  by rewrite Hx, Hf, Hc, list_insert_id.
Qed.

Lemma sample_effect_run h g lg orig_prob i j effects :
  h !! image = Some img →
  let pt := perturbed img patch_size delta i j in
  sample_effect (pure_module f) image c patch_size delta orig_prob i j effects
    (State h g lg)
  = (Ok (effects ++ [((sc pt - orig_prob) / delta)%Q]),
     State (h ++ [pt]) g (lg ++ [(pt, false)])).
Proof using Hsc.
  intros Himg pt. unfold sample_effect, clone, iadd_slice, deref, store, bind.
  simpl. rewrite Himg. simpl.
  rewrite list_lookup_middle by done. simpl.
  rewrite insert_app_r_alt by done. rewrite Nat.sub_diag. simpl.
  fold (perturbed img patch_size delta i j). fold pt.
  rewrite (class_prob_run _ _ _ _ pt) by (by apply list_lookup_middle).
  done.
Qed.

Lemma samples_run {A : Type} (xs : list A) h g lg orig_prob i j effects :
  h !! image = Some img →
  let pt := perturbed img patch_size delta i j in
  for_each xs
    (λ _, sample_effect (pure_module f) image c patch_size delta orig_prob i j)
    effects (State h g lg)
  = (Ok (effects ++ replicate (length xs) ((sc pt - orig_prob) / delta)%Q),
     State (h ++ replicate (length xs) pt) g
           (lg ++ replicate (length xs) (pt, false))).
Proof using Hsc.
  intros Himg pt. revert h lg effects Himg.
  induction xs as [|x xs IH]; intros h lg effects Himg; simpl.
  - by rewrite !app_nil_r.
  - erewrite bind_ok by (by apply sample_effect_run).
    rewrite IH by (by apply lookup_app_l_Some).
    by rewrite <- !app_assoc.
Qed.

(** With no sample the average divides by zero. *)
Lemma patch_body_no_sample h g lg orig_prob i j heatmap :
  (num_samples ≤ 0)%Z →
  patch_body (pure_module f) image c patch_size num_samples delta orig_prob
    i j heatmap (State h g lg)
  = (Raise ZeroDivisionError, State h g lg).
Proof.
  intros Hn. unfold patch_body, range.
  replace (Z.to_nat num_samples) with 0%nat by lia. done.
Qed.

Lemma patch_body_run h g lg i j heatmap nh nw :
  (0 < num_samples)%Z →
  h !! image = Some img →
  rect nh nw heatmap →
  (0 ≤ i < Z.of_nat nh)%Z → (0 ≤ j < Z.of_nat nw)%Z →
  let pt := perturbed img patch_size delta i j in
  let k := Z.to_nat num_samples in
  patch_body (pure_module f) image c patch_size num_samples delta (sc img)
    i j heatmap (State h g lg)
  = (Ok (grid_put heatmap (Z.to_nat i) (Z.to_nat j)
           (patch_value sc img patch_size num_samples delta i j)),
     State (h ++ replicate k pt) g (lg ++ replicate k (pt, false))).
Proof using Hsc.
  intros Hn Himg [Hlen Hrows] Hi Hj pt k. unfold patch_body.
  erewrite bind_ok by (by apply samples_run).
  rewrite length_range. fold k. simpl.
  unfold py_truediv. rewrite length_replicate.
  destruct (Z.eqb_spec (Z.of_nat k) 0) as [Hk|_]; [lia|].
  unfold bind at 1, ret at 1. unfold setitem.
  rewrite norm_index_nonneg by lia.
  destruct (lookup_lt_is_Some_2 heatmap (Z.to_nat i)) as [row Hrow]; [lia|].
  rewrite Hrow. rewrite norm_index_nonneg by (rewrite (Hrows _ _ Hrow); lia).
  unfold grid_put. rewrite Hrow. unfold ret.
  unfold patch_value, average, elementary_effect.
  by rewrite length_replicate.
Qed.

Lemma sweep_run order h g lg heatmap nh nw :
  (0 < num_samples)%Z →
  h !! image = Some img →
  rect nh nw heatmap →
  (∀ i j, (i, j) ∈ order → (0 ≤ i < Z.of_nat nh)%Z ∧ (0 ≤ j < Z.of_nat nw)%Z) →
  let cl := clones img patch_size num_samples delta order in
  patch_sweep_in order (pure_module f) image c patch_size num_samples delta
    (sc img) heatmap (State h g lg)
  = (Ok (swept sc img patch_size num_samples delta order heatmap),
     State (h ++ cl) g (lg ++ (no_grad_pass <$> cl))).
Proof using Hsc.
  intros Hn Himg Hrect Hin cl. subst cl. unfold patch_sweep_in.
  revert h lg heatmap Himg Hrect.
  induction order as [|[i j] order IH]; intros h lg heatmap Himg Hrect.
  - simpl. by rewrite !app_nil_r.
  - destruct (Hin i j) as [Hi Hj]; [left|].
    cbn [for_each]. erewrite bind_ok by (by eapply patch_body_run).
    rewrite IH.
    + rewrite clones_cons, fmap_app, fmap_replicate. cbn [fst snd].
      by rewrite <- !app_assoc.
    + intros i' j' Hij. apply Hin. by right.
    + by apply lookup_app_l_Some.
    + by apply rect_put.
Qed.

(** Without samples the first patch visited raises. *)
Lemma sweep_no_sample order h g lg orig_prob heatmap :
  (num_samples ≤ 0)%Z →
  patch_sweep_in order (pure_module f) image c patch_size num_samples delta
    orig_prob heatmap (State h g lg)
  = (match order with [] => Ok heatmap | _ => Raise ZeroDivisionError end,
     State h g lg).
Proof.
  intros Hn. unfold patch_sweep_in. destruct order as [|[i j] order]; [done|].
  simpl. erewrite bind_raise; [done|]. by apply patch_body_no_sample.
Qed.

Lemma patch_sweep_row_major model orig_prob nh nw heatmap s :
  patch_sweep model image c patch_size num_samples delta orig_prob nh nw heatmap s
  = patch_sweep_in (row_major nh nw) model image c patch_size num_samples delta
      orig_prob heatmap s.
Proof. unfold patch_sweep, patch_sweep_in, row_major. apply for_each_nested. Qed.

End runs.

(** ** Normalisation *)

Lemma Qgtb_true x y : Qgtb x y = true ↔ (y < x)%Q.
Proof.
  unfold Qgtb. rewrite Qgt_alt. destruct (x ?= y)%Q; split; congruence.
Qed.

Lemma Qgtb_false x y : Qgtb x y = false ↔ (x <= y)%Q.
Proof.
  rewrite <- not_true_iff_false, Qgtb_true. split.
  - apply Qnot_lt_le.
  - apply Qle_not_lt.
Qed.

Lemma concat_grid_map f g : concat (grid_map f g) = f <$> concat g.
Proof.
  unfold grid_map. induction g as [|row g IH]; [done|].
  rewrite fmap_cons. cbn [concat]. by rewrite fmap_app, IH.
Qed.

Lemma lookup2_grid_map f g y x : lookup2 (grid_map f g) y x = f <$> lookup2 g y x.
Proof.
  unfold lookup2, grid_map. rewrite list_lookup_fmap.
  destruct (g !! y) as [row|]; simpl; [|done]. by rewrite list_lookup_fmap.
Qed.


Lemma foldl_Qmin_spec xs x :
  let m := foldl Qmin x xs in
  m ∈ x :: xs ∧ ∀ v, v ∈ x :: xs → (m <= v)%Q.
Proof.
  revert x. induction xs as [|y xs IH]; intros x; simpl.
  - split; [by left|]. intros v ->%list_elem_of_singleton. apply Qle_refl.
  - destruct (IH (Qmin x y)) as [Hin Hle]. split.
    + apply elem_of_cons in Hin as [Hin|Hin]; [|by do 2 right].
      rewrite Hin. unfold Qmin, GenericMinMax.gmin.
      destruct (x ?= y)%Q; [left|left|right; left]; done.
    + intros v Hv. apply elem_of_cons in Hv as [->|Hv].
      * eapply Qle_trans; [apply Hle; by left|]. apply Q.le_min_l.
      * apply elem_of_cons in Hv as [->|Hv].
        -- eapply Qle_trans; [apply Hle; by left|]. apply Q.le_min_r.
        -- apply Hle. by right.
Qed.

Lemma foldl_Qmax_spec xs x :
  let m := foldl Qmax x xs in
  m ∈ x :: xs ∧ ∀ v, v ∈ x :: xs → (v <= m)%Q.
Proof.
  revert x. induction xs as [|y xs IH]; intros x; simpl.
  - split; [by left|]. intros v ->%list_elem_of_singleton. apply Qle_refl.
  - destruct (IH (Qmax x y)) as [Hin Hle]. split.
    + apply elem_of_cons in Hin as [Hin|Hin]; [|by do 2 right].
      rewrite Hin. unfold Qmax, GenericMinMax.gmax.
      destruct (x ?= y)%Q; [left|right; left|left]; done.
    + intros v Hv. apply elem_of_cons in Hv as [->|Hv].
      * eapply Qle_trans; [|apply Hle; by left]. apply Q.le_max_l.
      * apply elem_of_cons in Hv as [->|Hv].
        -- eapply Qle_trans; [|apply Hle; by left]. apply Q.le_max_r.
        -- apply Hle. by right.
Qed.

Lemma flat_min_spec l :
  l ≠ [] → flat_min l ∈ l ∧ ∀ v, v ∈ l → (flat_min l <= v)%Q.
Proof. destruct l as [|x xs]; [done|]. intros _. apply foldl_Qmin_spec. Qed.

Lemma flat_max_spec l :
  l ≠ [] → flat_max l ∈ l ∧ ∀ v, v ∈ l → (v <= flat_max l)%Q.
Proof. destruct l as [|x xs]; [done|]. intros _. apply foldl_Qmax_spec. Qed.

Lemma normalize_run heatmap s :
  concat heatmap ≠ [] → normalize heatmap s = (Ok (normalized heatmap), s).
Proof.
  intros Hne. unfold normalize, normalized, tensor_min, tensor_max, bind, ret.
  rewrite concat_grid_map.
  destruct (concat heatmap) as [|x xs]; [done|]. simpl.
  by destruct (Qgtb _ _).
Qed.

Lemma normalize_empty heatmap s :
  concat heatmap = [] → ∃ msg, normalize heatmap s = (Raise (RuntimeError msg), s).
Proof.
  intros He. unfold normalize, tensor_min, bind.
  rewrite concat_grid_map, He. simpl. eauto.
Qed.

Lemma rect_concat_nonempty nh nw (g : grid) :
  rect nh nw g → 0 < nh → 0 < nw → concat g ≠ [].
Proof.
  intros [Hlen Hrows] Hh Hw. destruct g as [|row g]; [simpl in *; lia|].
  specialize (Hrows 0%nat row eq_refl). destruct row; [simpl in *; lia|done].
Qed.

Lemma rect_concat_empty nh nw (g : grid) :
  rect nh nw g → nh = 0%nat ∨ nw = 0%nat → concat g = [].
Proof.
  intros [Hlen Hrows] [->| ->].
  - by destruct g.
  - clear Hlen. induction g as [|row g IH]; [done|]. simpl.
    rewrite IH by (intros y r Hr; apply (Hrows (S y) r Hr)).
    specialize (Hrows 0%nat row eq_refl). by destruct row.
Qed.

Lemma elem_of_concat_lookup2 (g : grid) v :
  v ∈ concat g ↔ ∃ y x, lookup2 g y x = Some v.
Proof.
  unfold lookup2. rewrite list_elem_of_In, in_concat. split.
  - intros (row & Hrow & Hv). apply list_elem_of_In in Hrow, Hv.
    apply list_elem_of_lookup in Hrow as [y Hy].
    apply list_elem_of_lookup in Hv as [x Hx].
    exists y, x. by rewrite Hy.
  - intros (y & x & H). destruct (g !! y) as [row|] eqn:Hy; [|done].
    exists row. rewrite <- !list_elem_of_In. split; by eapply list_elem_of_lookup_2.
Qed.

(** ** The swept grid *)

Lemma rect_swept sc img patch_size num_samples delta order nh nw g :
  rect nh nw g → rect nh nw (swept sc img patch_size num_samples delta order g).
Proof.
  unfold swept. revert g. induction order as [|ij order IH]; intros g Hg; [done|].
  simpl. apply IH. by apply rect_put.
Qed.

(** Every cell holds the value of its own patch once that patch has been
    visited, whatever else was visited before or after. *)
Lemma lookup2_swept sc img patch_size num_samples delta order g y x :
  (∀ i j, (i, j) ∈ order → (0 ≤ i)%Z ∧ (0 ≤ j)%Z) →
  lookup2 (swept sc img patch_size num_samples delta order g) y x
  = (λ v0, if decide ((Z.of_nat y, Z.of_nat x) ∈ order)
           then patch_value sc img patch_size num_samples delta
                  (Z.of_nat y) (Z.of_nat x)
           else v0) <$> lookup2 g y x.
Proof.
  unfold swept. revert g. induction order as [|[i j] order IH]; intros g Hpos.
  - cbn [foldl]. destruct (lookup2 g y x); cbn [fmap option_fmap option_map]; [|done].
    rewrite decide_False; [done|]. apply not_elem_of_nil.
  - simpl. rewrite IH by (intros i' j' Hij; apply Hpos; by right).
    rewrite lookup2_put. destruct (lookup2 g y x) as [v0|]; simpl; [|done].
    destruct (Hpos i j) as [Hi Hj]; [by left|]. f_equal.
    destruct (decide ((Z.of_nat y, Z.of_nat x) ∈ order)) as [Hin|Hnin].
    + rewrite decide_True; [done|by right].
    + destruct (decide (Z.to_nat i = y ∧ Z.to_nat j = x)) as [[<- <-]|Hne].
      * rewrite !Z2Nat.id by done. rewrite decide_True; [done|by left].
      * rewrite decide_False; [done|].
        intros [Heq|Hin]%elem_of_cons; [|done]. simplify_eq. apply Hne. lia.
Qed.


Lemma lookup2_raw_heatmap sc img patch_size num_samples delta y x :
  (Z.of_nat y < Z.of_nat (height img) / patch_size)%Z →
  (Z.of_nat x < Z.of_nat (width img) / patch_size)%Z →
  lookup2 (raw_heatmap sc img patch_size num_samples delta) y x
  = Some (patch_value sc img patch_size num_samples delta (Z.of_nat y) (Z.of_nat x)).
Proof.
  intros Hy Hx. unfold raw_heatmap. rewrite lookup2_swept.
  - destruct (rect_lookup2 _ _ _ y x
               (rect_replicate (Z.to_nat (Z.of_nat (height img) / patch_size))
                  (Z.to_nat (Z.of_nat (width img) / patch_size)) 0%Q))
      as [v0 Hv0]; [lia..|].
    rewrite Hv0. simpl. rewrite decide_True; [done|].
    apply elem_of_row_major. lia.
  - intros i j Hij%elem_of_row_major. lia.
Qed.

(** ** Upsampling *)

Lemma high_weight_range in_size out_size dst :
  unit_interval (high_weight in_size out_size dst).
Proof.
  unfold unit_interval, high_weight.
  set (src := source_coord in_size out_size dst).
  pose proof (Qfloor_le src) as Hlo. pose proof (Qlt_floor src) as Hhi.
  rewrite inject_Z_plus in Hhi. change (inject_Z 1) with 1%Q in Hhi.
  split; lra.
Qed.

Lemma bilinear_unit_interval lh lw a b c d :
  unit_interval lh → unit_interval lw →
  unit_interval a → unit_interval b → unit_interval c → unit_interval d →
  unit_interval ((1 - lh) * ((1 - lw) * a + lw * b)
                 + lh * ((1 - lw) * c + lw * d))%Q.
Proof.
  unfold unit_interval. intros Hlh Hlw Ha Hb Hc Hd.
  assert (0 <= (1 - lw) * a + lw * b <= 1)%Q as Htop by nra.
  assert (0 <= (1 - lw) * c + lw * d <= 1)%Q as Hbot by nra.
  nra.
Qed.

Lemma cell_elem (P : Q → Prop) (g : grid) y x :
  P 0%Q → (∀ v, v ∈ concat g → P v) → P (cell g y x).
Proof.
  intros H0 Hg. unfold cell. fold (lookup2 g y x).
  destruct (lookup2 g y x) as [v|] eqn:Hv; simpl; [|done].
  apply Hg, elem_of_concat_lookup2. eauto.
Qed.

Lemma elem_of_interpolate (g : grid) H W v :
  v ∈ concat (interpolate_bilinear g H W) →
  ∃ lh lw a b c d,
    unit_interval lh ∧ unit_interval lw ∧
    v = ((1 - lh) * ((1 - lw) * a + lw * b) + lh * ((1 - lw) * c + lw * d))%Q ∧
    (∀ P : Q → Prop, P 0%Q → (∀ w, w ∈ concat g → P w) → P a ∧ P b ∧ P c ∧ P d).
Proof.
  unfold interpolate_bilinear. rewrite list_elem_of_In, in_concat.
  intros (row & Hrow & Hv). apply list_elem_of_In in Hrow, Hv.
  apply list_elem_of_fmap in Hrow as (y & -> & _).
  apply list_elem_of_fmap in Hv as (x & -> & _).
  eexists _, _, _, _, _, _. split; [apply high_weight_range|].
  split; [apply high_weight_range|]. split; [reflexivity|].
  intros P H0 Hg. repeat split; by apply cell_elem.
Qed.

Lemma rect_interpolate (g : grid) H W : rect H W (interpolate_bilinear g H W).
Proof.
  unfold interpolate_bilinear. split.
  - by rewrite length_fmap, length_seq.
  - intros y row. rewrite list_lookup_fmap.
    destruct (seq 0 H !! y); simpl; [|done].
    intros [= <-]. by rewrite length_fmap, length_seq.
Qed.

Lemma interpolate_unit_interval (g : grid) H W :
  (∀ v, v ∈ concat g → unit_interval v) →
  ∀ v, v ∈ concat (interpolate_bilinear g H W) → unit_interval v.
Proof.
  intros Hg v (lh & lw & a & b & c & d & Hlh & Hlw & -> & Hcells)%elem_of_interpolate.
  destruct (Hcells unit_interval) as (Ha & Hb & Hc & Hd); [|done|].
  { unfold unit_interval. lra. }
  by apply bilinear_unit_interval.
Qed.


(** [squeeze] only drops dimensions: it invents no value (a missing entry
    reads as [0], which cannot happen on an [H] by [W] grid). *)
Lemma values_squeeze (P : Q → Prop) H W (g : grid) :
  P 0%Q → (∀ v, v ∈ concat g → P v) → ∀ v, v ∈ values (squeeze H W g) → P v.
Proof.
  intros H0 Hg v. unfold squeeze.
  assert (Hhead : ∀ w, w ∈ default [] (head g) → P w).
  { destruct g as [|row g]; simpl; [by intros w ?%not_elem_of_nil|].
    intros w Hw. apply Hg. simpl. apply elem_of_app. by left. }
  assert (Hcol : ∀ w, w ∈ (λ row : list Q, default 0%Q (head row)) <$> g → P w).
  { intros w (row & -> & Hrow)%list_elem_of_fmap.
    destruct row as [|w row]; simpl; [done|]. apply Hg.
    rewrite list_elem_of_In, in_concat. exists (w :: row).
    rewrite <- !list_elem_of_In. split; [done|by left]. }
  assert (Hscalar : ∀ w, w ∈ [cell g 0 0] → P w).
  { intros w ->%list_elem_of_singleton. by apply cell_elem. }
  destruct H as [|[|H]], W as [|[|W]]; simpl; auto.
Qed.

Lemma squeeze_matrix H W (g : grid) :
  2 ≤ H → 2 ≤ W → squeeze H W g = Mat g.
Proof. intros HH HW. destruct H as [|[|H]], W as [|[|W]]; (done || lia). Qed.

Lemma upsample_unit_interval H W (g : grid) :
  (∀ v, v ∈ concat g → unit_interval v) →
  ∀ v, v ∈ values (upsample H W g) → unit_interval v.
Proof.
  intros Hg. unfold upsample. apply values_squeeze.
  - unfold unit_interval. lra.
  - by apply interpolate_unit_interval.
Qed.


Lemma eps_pos : (0 < eps)%Q.
Proof. reflexivity. Qed.

Lemma normalized_unit_interval (heatmap : grid) :
  ∀ v, v ∈ concat (normalized heatmap) → unit_interval v.
Proof.
  intros v. unfold normalized.
  set (a := grid_map Qabs heatmap).
  destruct (Qgtb _ _) eqn:Hgt; rewrite concat_grid_map;
    intros (w & -> & Hw)%list_elem_of_fmap; unfold unit_interval.
  - apply Qgtb_true in Hgt. pose proof eps_pos as Heps.
    assert (Hne : concat a ≠ []) by (by intros He; rewrite He in Hw; apply not_elem_of_nil in Hw).
    destruct (flat_min_spec _ Hne) as [_ Hmin].
    destruct (flat_max_spec _ Hne) as [_ Hmax].
    specialize (Hmin w Hw). specialize (Hmax w Hw).
    split.
    + apply Qle_shift_div_l; lra.
    + apply Qle_shift_div_r; lra.
  - lra.
Qed.

(** ** Whole runs of [generate_attribution] *)

Lemma generate_attribution_row_major image c model patch_size num_samples delta s :
  generate_attribution image c model patch_size num_samples delta s
  = generate_attribution_in row_major image c model patch_size num_samples delta s.
Proof.
  unfold generate_attribution, generate_attribution_in, bind.
  destruct (class_prob model image c s) as [[orig_prob|e] s1]; [|done].
  destruct (deref image s1) as [[img|e] s2]; [|done].
  destruct (py_floordiv _ _ s2) as [[nh|e] s3]; [|done].
  destruct (py_floordiv _ _ s3) as [[nw|e] s4]; [|done].
  destruct (zeros nh nw s4) as [[heatmap|e] s5]; [|done].
  by rewrite patch_sweep_row_major.
Qed.

Section attribution.
Context (f : tensor → result (list Q)) (c : Z) (sc : tensor → Q).
Context (Hsc : scores f c sc).
Context (image : loc) (img : tensor) (patch_size num_samples : Z) (delta : Q).

Let H := height img.
Let W := width img.
Let nh := (Z.of_nat H / patch_size)%Z.
Let nw := (Z.of_nat W / patch_size)%Z.
Let blank : grid := replicate (Z.to_nat nh) (replicate (Z.to_nat nw) 0%Q).

(** Up to the patch loops: one forward pass on the image itself. *)
Lemma attribution_prefix order h g lg :
  h !! image = Some img →
  patch_size ≠ 0%Z → (0 ≤ nh)%Z → (0 ≤ nw)%Z →
  generate_attribution_in order image c (pure_module f) patch_size num_samples
    delta (State h g lg)
  = (heatmap <- patch_sweep_in (order nh nw) (pure_module f) image c
                  patch_size num_samples delta (sc img) blank ;;
     heatmap <- normalize heatmap ;;
     ret (upsample H W heatmap)) (State h g (lg ++ [(img, false)])).
Proof using Hsc.
  intros Himg Hp Hnh Hnw. unfold generate_attribution_in.
  erewrite bind_ok by (by apply class_prob_run).
  unfold bind at 1, deref at 1. cbn [heap]. rewrite Himg.
  unfold bind at 1, py_floordiv at 1.
  destruct (Z.eqb_spec patch_size 0) as [?|_]; [done|]. unfold ret at 1.
  unfold bind at 1, py_floordiv at 1.
  destruct (Z.eqb_spec patch_size 0) as [?|_]; [done|]. unfold ret at 1.
  unfold bind at 1, zeros at 1. fold H W. fold nh nw.
  destruct (Z.ltb_spec nh 0) as [?|_]; [lia|].
  destruct (Z.ltb_spec nw 0) as [?|_]; [lia|]. done.
Qed.

Lemma attribution_zero_patch h g lg order :
  h !! image = Some img → patch_size = 0%Z →
  generate_attribution_in order image c (pure_module f) patch_size num_samples
    delta (State h g lg)
  = (Raise ZeroDivisionError, State h g (lg ++ [(img, false)])).
Proof using Hsc.
  intros Himg ->. unfold generate_attribution_in.
  erewrite bind_ok by (by apply class_prob_run).
  unfold bind, deref. cbn [heap]. by rewrite Himg.
Qed.

Lemma attribution_negative_grid h g lg order :
  h !! image = Some img → patch_size ≠ 0%Z → (nh < 0 ∨ nw < 0)%Z →
  ∃ msg,
    generate_attribution_in order image c (pure_module f) patch_size num_samples
      delta (State h g lg)
    = (Raise (RuntimeError msg), State h g (lg ++ [(img, false)])).
Proof using Hsc.
  intros Himg Hp Hneg. unfold generate_attribution_in.
  erewrite bind_ok by (by apply class_prob_run).
  unfold bind, deref, py_floordiv, zeros. cbn [heap]. rewrite Himg.
  destruct (Z.eqb_spec patch_size 0) as [?|_]; [done|]. unfold ret.
  fold H W. fold nh nw.
  destruct (Z.ltb_spec nh 0), (Z.ltb_spec nw 0); simpl; eauto. lia.
Qed.

Lemma attribution_empty_grid h g lg :
  h !! image = Some img → patch_size ≠ 0%Z → (0 ≤ nh)%Z → (0 ≤ nw)%Z →
  (nh = 0 ∨ nw = 0)%Z →
  ∃ msg,
    generate_attribution_in row_major image c (pure_module f) patch_size
      num_samples delta (State h g lg)
    = (Raise (RuntimeError msg), State h g (lg ++ [(img, false)])).
Proof using Hsc.
  intros Himg Hp Hnh Hnw Hz. rewrite attribution_prefix by done.
  assert (row_major nh nw = []) as ->.
  { unfold row_major, range. destruct Hz as [-> | ->]; [done|]. simpl.
    induction (seq 0 (Z.to_nat nh)) as [|? ? IH]; [done|].
    by rewrite fmap_cons, bind_cons, IH. }
  unfold patch_sweep_in. cbn [for_each]. unfold bind at 1, ret at 1.
  destruct (normalize_empty blank (State h g (lg ++ [(img, false)]))) as [msg Hmsg].
  { eapply rect_concat_empty; [apply rect_replicate|]. lia. }
  exists msg. by erewrite bind_raise.
Qed.

Lemma attribution_no_sample h g lg :
  h !! image = Some img → patch_size ≠ 0%Z → (0 < nh)%Z → (0 < nw)%Z →
  (num_samples ≤ 0)%Z →
  generate_attribution_in row_major image c (pure_module f) patch_size
    num_samples delta (State h g lg)
  = (Raise ZeroDivisionError, State h g (lg ++ [(img, false)])).
Proof using Hsc.
  intros Himg Hp Hnh Hnw Hn. rewrite attribution_prefix by (done || lia).
  erewrite bind_raise; [done|]. rewrite sweep_no_sample by done.
  destruct (row_major nh nw) eqn:Hrm; [|done].
  assert ((0, 0)%Z ∈ row_major nh nw) as Hin by (apply elem_of_row_major; lia).
  rewrite Hrm in Hin. by apply not_elem_of_nil in Hin.
Qed.

(** A valid configuration: every patch is swept, the grid is normalised
    and upsampled; the store gains the clones, the log one baseline pass
    and one pass per clone, all with gradients disabled. *)
Lemma attribution_run order h g lg :
  h !! image = Some img →
  (0 < patch_size ≤ Z.of_nat H)%Z → (patch_size ≤ Z.of_nat W)%Z →
  (0 < num_samples)%Z →
  (∀ i j, (i, j) ∈ order nh nw → (0 ≤ i < nh)%Z ∧ (0 ≤ j < nw)%Z) →
  let cl := clones img patch_size num_samples delta (order nh nw) in
  generate_attribution_in order image c (pure_module f) patch_size num_samples
    delta (State h g lg)
  = (Ok (upsample H W
           (normalized (swept sc img patch_size num_samples delta
                          (order nh nw) blank))),
     State (h ++ cl) g (lg ++ (img, false) :: (no_grad_pass <$> cl))).
Proof using Hsc.
  intros Himg Hp HpW Hn Horder cl.
  assert (0 < nh)%Z as Hnh by (apply Z.div_str_pos; lia).
  assert (0 < nw)%Z as Hnw by (apply Z.div_str_pos; lia).
  rewrite attribution_prefix by (done || lia).
  erewrite bind_ok.
  2:{ eapply sweep_run; [done..|apply rect_replicate|].
      intros i j Hij. apply Horder in Hij. lia. }
  erewrite bind_ok.
  2:{ apply normalize_run. eapply rect_concat_nonempty.
      - apply rect_swept, rect_replicate.
      - lia.
      - lia. }
  unfold ret. by rewrite <- app_assoc.
Qed.

End attribution.

(** ** Pixels of a perturbed clone *)

Lemma pixel_iadd_region delta r0 r1 c0 c1 t ch y x :
  pixel (iadd_region delta r0 r1 c0 c1 t) ch y x
  = (λ v, if in_slice (height t) r0 r1 y && in_slice (width t) c0 c1 x
          then (v + delta)%Q else v) <$> pixel t ch y x.
Proof.
  unfold pixel, iadd_region. cbn [pixels]. rewrite list_lookup_fmap.
  destruct (pixels t !! ch) as [plane|]; simpl; [|done].
  rewrite list_lookup_imap. destruct (plane !! y) as [row|]; simpl; [|done].
  destruct (in_slice (height t) r0 r1 y); simpl.
  - by rewrite list_lookup_imap.
  - by destruct (row !! x).
Qed.

Lemma in_slice_true len a b idx :
  (0 ≤ a)%Z → (0 ≤ b)%Z → in_slice len a b idx = true →
  (a ≤ Z.of_nat idx < b)%Z ∧ idx < len.
Proof.
  intros Ha Hb. unfold in_slice, slice_bound.
  destruct (Z.ltb_spec a 0); [lia|]. destruct (Z.ltb_spec b 0); [lia|].
  rewrite andb_true_iff, Nat.leb_le, Nat.ltb_lt. lia.
Qed.

Lemma pixel_perturbed_inside img patch_size delta i j ch y x :
  (0 < patch_size)%Z → (0 ≤ i)%Z → (0 ≤ j)%Z →
  y < height img → x < width img →
  in_patch patch_size i j y x →
  pixel (perturbed img patch_size delta i j) ch y x
  = (λ v, (v + delta)%Q) <$> pixel img ch y x.
Proof.
  intros Hp Hi Hj Hy Hx [Hr Hc]. unfold perturbed. rewrite pixel_iadd_region.
  assert (in_slice (height img) (i * patch_size) ((i + 1) * patch_size) y = true)
    as -> by (apply in_slice_nonneg; [nia..|done|done]).
  assert (in_slice (width img) (j * patch_size) ((j + 1) * patch_size) x = true)
    as -> by (apply in_slice_nonneg; [nia..|done|done]).
  done.
Qed.

Lemma pixel_perturbed_outside img patch_size delta i j ch y x :
  (0 < patch_size)%Z → (0 ≤ i)%Z → (0 ≤ j)%Z →
  ¬ in_patch patch_size i j y x →
  pixel (perturbed img patch_size delta i j) ch y x = pixel img ch y x.
Proof.
  intros Hp Hi Hj Hout. unfold perturbed. rewrite pixel_iadd_region.
  destruct (in_slice (height img) _ _ y) eqn:Hr, (in_slice (width img) _ _ x) eqn:Hc;
    simpl; try by destruct (pixel img ch y x).
  apply in_slice_true in Hr as [Hr _]; [|nia..].
  apply in_slice_true in Hc as [Hc _]; [|nia..].
  destruct Hout. by split.
Qed.

Lemma elem_of_clones img patch_size num_samples delta order t :
  t ∈ clones img patch_size num_samples delta order →
  ∃ i j, (i, j) ∈ order ∧ t = perturbed img patch_size delta i j.
Proof.
  unfold clones. intros ([i j] & Ht & Hij)%list_elem_of_bind.
  apply elem_of_replicate in Ht as [-> _]. eauto.
Qed.

Lemma length_clones img patch_size num_samples delta order :
  length (clones img patch_size num_samples delta order)
  = (length order * Z.to_nat num_samples)%nat.
Proof.
  induction order as [|ij order IH]; [done|].
  rewrite clones_cons, length_app, length_replicate, IH. simpl. lia.
Qed.

Lemma length_row_major nh nw :
  length (row_major nh nw) = (Z.to_nat nh * Z.to_nat nw)%nat.
Proof.
  unfold row_major. rewrite <- (length_range nh), <- (length_range nw).
  induction (range nh) as [|i l IH]; [done|].
  rewrite bind_cons, length_app, IH. simpl. f_equal.
  clear. induction (range nw) as [|j l IH]; [done|].
  rewrite bind_cons, length_app, IH. done.
Qed.

(** ** Two small logics over the monad *)

Section logics.
Context {I I1 I2 : list tensor → Prop}.

Lemma stateless_ret {A : Type} (a : A) : stateless (ret a).
Proof. by exists (Ok a). Qed.

Lemma stateless_raise {A : Type} e : stateless (raise (A:=A) e).
Proof. by exists (Raise e). Qed.

Lemma stateless_bind {A B : Type} (m : M A) (k : A → M B) :
  stateless m → (∀ a, stateless (k a)) → stateless (bind m k).
Proof.
  intros [[a|e] Hm] Hk.
  - destruct (Hk a) as [r Hr]. exists r. intros s. unfold bind. by rewrite Hm.
  - exists (Raise e). intros s. unfold bind. by rewrite Hm.
Qed.

Lemma keeps_stateless {A : Type} (m : M A) : stateless m → keeps I m any.
Proof. intros [r Hr] s Hs. rewrite Hr. by split. Qed.

Lemma keeps_weaken {A : Type} (m : M A) (Q Q' : A → Prop) :
  keeps I m Q → (∀ a, Q a → Q' a) → keeps I m Q'.
Proof. intros Hm HQ s Hs. destruct (Hm s Hs) as [HI Ha]. split; auto. Qed.

Lemma keeps_bind {A B : Type} (m : M A) (k : A → M B) (Q : A → Prop) (R : B → Prop) :
  keeps I m Q → (∀ a, Q a → keeps I (k a) R) → keeps I (bind m k) R.
Proof.
  intros Hm Hk s Hs. destruct (Hm s Hs) as [HI Ha]. unfold bind.
  destruct (m s) as [[a|e] s1]; simpl in *; [|done].
  by apply Hk; [apply Ha|].
Qed.

Lemma keeps_for_each {A S : Type} (xs : list A) (body : A → S → M S) acc :
  (∀ x acc, keeps I (body x acc) any) → keeps I (for_each xs body acc) any.
Proof.
  intros Hbody. revert acc. induction xs as [|x xs IH]; intros acc; simpl.
  - apply keeps_stateless, stateless_ret.
  - eapply keeps_bind; [apply Hbody|]. intros a _. apply IH.
Qed.

Lemma keeps_no_grad {A : Type} (m : M A) (Q : A → Prop) :
  keeps I m Q → keeps I (no_grad m) Q.
Proof.
  intros Hm s Hs. unfold no_grad.
  specialize (Hm {| heap := heap s; grad_enabled := false; log := log s |} Hs).
  by destruct (m _) as [r s1].
Qed.

Lemma agree_stateless {A : Type} (m : M A) : stateless m → agree I1 I2 m m.
Proof. intros [r Hr] s1 s2 Hs1 Hs2. by rewrite !Hr. Qed.

Lemma agree_bind {A B : Type} (m1 m2 : M A) (k1 k2 : A → M B) :
  agree I1 I2 m1 m2 → (∀ a, agree I1 I2 (k1 a) (k2 a)) →
  agree I1 I2 (bind m1 k1) (bind m2 k2).
Proof.
  intros Hm Hk s1 s2 Hs1 Hs2. destruct (Hm s1 s2 Hs1 Hs2) as (Hr & H1 & H2).
  unfold bind. destruct (m1 s1) as [r1 s1'], (m2 s2) as [r2 s2'].
  simpl in *. subst r2. destruct r1 as [a|e]; [by apply Hk|done].
Qed.

Lemma agree_for_each {A S : Type} (xs : list A) (b1 b2 : A → S → M S) acc :
  (∀ x acc, agree I1 I2 (b1 x acc) (b2 x acc)) →
  agree I1 I2 (for_each xs b1 acc) (for_each xs b2 acc).
Proof.
  intros Hbody. revert acc. induction xs as [|x xs IH]; intros acc; simpl.
  - apply agree_stateless, stateless_ret.
  - apply agree_bind; [apply Hbody|]. intros a. apply IH.
Qed.

Lemma agree_no_grad {A : Type} (m1 m2 : M A) :
  agree I1 I2 m1 m2 → agree I1 I2 (no_grad m1) (no_grad m2).
Proof.
  intros Hm s1 s2 Hs1 Hs2. unfold no_grad.
  specialize (Hm {| heap := heap s1; grad_enabled := false; log := log s1 |}
                 {| heap := heap s2; grad_enabled := false; log := log s2 |}
                 Hs1 Hs2).
  by destruct (m1 _) as [r1 s1'], (m2 _) as [r2 s2'].
Qed.
End logics.

Lemma stateless_select_class probs c : stateless (select_class probs c).
Proof.
  unfold select_class. destruct (py_index probs c);
    [apply stateless_ret|apply stateless_raise].
Qed.

Lemma stateless_py_floordiv a b : stateless (py_floordiv a b).
Proof.
  unfold py_floordiv. destruct (b =? 0)%Z; [apply stateless_raise|apply stateless_ret].
Qed.

Lemma stateless_py_truediv a n : stateless (py_truediv a n).
Proof.
  unfold py_truediv. destruct (n =? 0)%Z; [apply stateless_raise|apply stateless_ret].
Qed.

Lemma stateless_zeros h w : stateless (zeros h w).
Proof.
  unfold zeros. destruct (_ || _); [apply stateless_raise|apply stateless_ret].
Qed.

Lemma stateless_setitem g i j v : stateless (setitem g i j v).
Proof.
  unfold setitem. repeat case_match;
    first [apply stateless_raise|apply stateless_ret].
Qed.

Lemma stateless_normalize heatmap : stateless (normalize heatmap).
Proof.
  unfold normalize, tensor_min, tensor_max.
  apply stateless_bind; [case_match; [apply stateless_raise|apply stateless_ret]|].
  intros mn.
  apply stateless_bind; [case_match; [apply stateless_raise|apply stateless_ret]|].
  intros mx. case_match; apply stateless_ret.
Qed.

Create HintDb stateless.

#[local] Hint Resolve stateless_ret stateless_raise stateless_select_class
  stateless_py_floordiv stateless_py_truediv stateless_zeros stateless_setitem
  stateless_normalize : stateless.

(** ** The image is kept, for any model that leaves its input alone *)

Section image_kept.
Context (model : module) (Hmodel : leaves_input model).
Context (image : loc) (img : tensor).

Lemma keeps_forward l : keeps (holds image img) (forward model l) any.
Proof using Hmodel.
  intros [h g lg] Hs. unfold forward. simpl in *.
  destruct (h !! l) as [t|] eqn:Hl; [|done].
  specialize (Hmodel t). destruct (model t) as [r t']. simpl in *. subst t'.
  by rewrite list_insert_id.
Qed.

Lemma keeps_class_prob l c : keeps (holds image img) (class_prob model l c) any.
Proof using Hmodel.
  apply keeps_no_grad. eapply keeps_bind; [apply keeps_forward|].
  intros probs _. apply keeps_stateless. auto with stateless.
Qed.

Lemma keeps_deref l : keeps (holds image img) (deref l) any.
Proof. intros s Hs. unfold deref. by destruct (heap s !! l). Qed.

(** A clone is a new tensor: its reference differs from the image's. *)
Lemma keeps_clone l : keeps (holds image img) (clone l) (λ l', l' ≠ image).
Proof.
  intros [h g lg] Hs. unfold clone, bind, deref, holds in *. simpl in *.
  destruct (h !! l) as [t|]; simpl; [|done]. split.
  - by apply lookup_app_l_Some.
  - intros a [= <-]. apply lookup_lt_Some in Hs. lia.
Qed.

Lemma keeps_iadd_slice l r0 r1 c0 c1 delta :
  l ≠ image → keeps (holds image img) (iadd_slice l r0 r1 c0 c1 delta) any.
Proof.
  intros Hne [h g lg] Hs. unfold iadd_slice, bind, deref, store, holds in *.
  simpl in *. destruct (h !! l) as [t|]; simpl; [|done].
  by rewrite list_lookup_insert_ne.
Qed.

Lemma keeps_sample_effect c patch_size delta orig_prob i j effects :
  keeps (holds image img)
    (sample_effect model image c patch_size delta orig_prob i j effects) any.
Proof using Hmodel.
  unfold sample_effect. eapply keeps_bind; [apply keeps_clone|].
  intros perturbed_image Hfresh.
  eapply keeps_bind; [by apply keeps_iadd_slice|]. intros _ _.
  eapply keeps_bind; [apply keeps_class_prob|]. intros new_prob _.
  apply keeps_stateless. auto with stateless.
Qed.

Lemma keeps_patch_body c patch_size num_samples delta orig_prob i j heatmap :
  keeps (holds image img)
    (patch_body model image c patch_size num_samples delta orig_prob i j heatmap)
    any.
Proof using Hmodel.
  unfold patch_body. eapply keeps_bind.
  { apply keeps_for_each. intros _ effects. apply keeps_sample_effect. }
  intros effects _. apply keeps_stateless.
  apply stateless_bind; auto with stateless.
Qed.

Lemma keeps_generate_attribution c patch_size num_samples delta :
  keeps (holds image img)
    (generate_attribution image c model patch_size num_samples delta) any.
Proof using Hmodel.
  unfold generate_attribution.
  eapply keeps_bind; [apply keeps_class_prob|]. intros orig_prob _.
  eapply keeps_bind; [apply keeps_deref|]. intros im _.
  eapply keeps_bind; [apply keeps_stateless; auto with stateless|]. intros nh _.
  eapply keeps_bind; [apply keeps_stateless; auto with stateless|]. intros nw _.
  eapply keeps_bind; [apply keeps_stateless; auto with stateless|]. intros hm _.
  eapply keeps_bind.
  { unfold patch_sweep. apply keeps_for_each. intros i acc.
    apply keeps_for_each. intros j acc'. apply keeps_patch_body. }
  intros hm' _. apply keeps_stateless.
  apply stateless_bind; auto with stateless.
Qed.
End image_kept.

Lemma leaves_input_pure f : leaves_input (pure_module f).
Proof. by intros t. Qed.

(** ** The outcome depends on the contents of the image only *)

Section outcome.
Context (f : tensor → result (list Q)) (c : Z).
Context (image1 image2 : loc) (img : tensor).
Context (patch_size num_samples : Z) (delta : Q).

Lemma class_prob_result h g lg x t :
  h !! x = Some t →
  class_prob (pure_module f) x c (State h g lg)
  = (prob_of f c t, State h g (lg ++ [(t, false)])).
Proof.
  intros Hx. unfold class_prob, no_grad, bind, forward, pure_module, select_class,
    prob_of. simpl. rewrite Hx, list_insert_id by done.
  destruct (f t) as [probs|e]; [|done]. by destruct (py_index probs c).
Qed.

Lemma sample_effect_result image h g lg orig_prob i j effects :
  h !! image = Some img →
  let pt := perturbed img patch_size delta i j in
  sample_effect (pure_module f) image c patch_size delta orig_prob i j effects
    (State h g lg)
  = (match prob_of f c pt with
     | Ok new_prob => Ok (effects ++ [((new_prob - orig_prob) / delta)%Q])
     | Raise e => Raise e
     end,
     State (h ++ [pt]) g (lg ++ [(pt, false)])).
Proof.
  intros Himg pt. unfold sample_effect, clone, iadd_slice, deref, store, bind.
  simpl. rewrite Himg. simpl.
  rewrite list_lookup_middle by done. simpl.
  rewrite insert_app_r_alt by done. rewrite Nat.sub_diag. simpl.
  fold (perturbed img patch_size delta i j). fold pt.
  rewrite (class_prob_result _ _ _ _ pt) by (by apply list_lookup_middle).
  by destruct (prob_of f c pt).
Qed.

Lemma agree_class_prob :
  agree (holds image1 img) (holds image2 img) (class_prob (pure_module f) image1 c)
              (class_prob (pure_module f) image2 c).
Proof.
  intros [h1 g1 lg1] [h2 g2 lg2] H1 H2. simpl in *.
  by rewrite !(class_prob_result _ _ _ _ img).
Qed.

Lemma agree_deref : agree (holds image1 img) (holds image2 img) (deref image1) (deref image2).
Proof.
  intros [h1 g1 lg1] [h2 g2 lg2] H1 H2. unfold deref, holds in *. simpl in *.
  by rewrite H1, H2.
Qed.

Lemma agree_sample_effect orig_prob i j effects :
  agree (holds image1 img) (holds image2 img)
    (sample_effect (pure_module f) image1 c patch_size delta orig_prob i j effects)
    (sample_effect (pure_module f) image2 c patch_size delta orig_prob i j effects).
Proof.
  intros [h1 g1 lg1] [h2 g2 lg2] H1 H2. simpl in *.
  rewrite !sample_effect_result by done. simpl.
  split; [done|]. split; by apply lookup_app_l_Some.
Qed.

Lemma agree_patch_body orig_prob i j heatmap :
  agree (holds image1 img) (holds image2 img)
    (patch_body (pure_module f) image1 c patch_size num_samples delta orig_prob
       i j heatmap)
    (patch_body (pure_module f) image2 c patch_size num_samples delta orig_prob
       i j heatmap).
Proof.
  unfold patch_body. apply agree_bind.
  { apply agree_for_each. intros _ effects. apply agree_sample_effect. }
  intros effects. apply agree_stateless.
  apply stateless_bind; auto with stateless.
Qed.

Lemma agree_generate_attribution :
  agree (holds image1 img) (holds image2 img)
    (generate_attribution image1 c (pure_module f) patch_size num_samples delta)
    (generate_attribution image2 c (pure_module f) patch_size num_samples delta).
Proof.
  unfold generate_attribution.
  apply agree_bind; [apply agree_class_prob|]. intros orig_prob.
  apply agree_bind; [apply agree_deref|]. intros im.
  apply agree_bind; [apply agree_stateless; auto with stateless|]. intros nh.
  apply agree_bind; [apply agree_stateless; auto with stateless|]. intros nw.
  apply agree_bind; [apply agree_stateless; auto with stateless|]. intros hm.
  apply agree_bind.
  { unfold patch_sweep. apply agree_for_each. intros i acc.
    apply agree_for_each. intros j acc'. apply agree_patch_body. }
  intros hm'. apply agree_stateless.
  apply stateless_bind; auto with stateless.
Qed.
End outcome.

(** ** Averages *)

Lemma py_sum_replicate_from a k e :
  foldl Qplus a (replicate k e) == a + inject_Z (Z.of_nat k) * e.
Proof.
  revert a. induction k as [|k IH]; intros a.
  - simpl. ring.
  - rewrite replicate_S. cbn [foldl]. rewrite IH, Nat2Z.inj_succ.
    unfold Z.succ. rewrite inject_Z_plus. change (inject_Z 1) with 1%Q. ring.
Qed.

Lemma average_replicate k e : (0 < k)%nat → average (replicate k e) == e.
Proof.
  intros Hk. unfold average, py_sum.
  rewrite py_sum_replicate_from, length_replicate.
  assert (¬ inject_Z (Z.of_nat k) == 0) as Hnz.
  { change 0%Q with (inject_Z 0). rewrite inject_Z_injective. lia. }
  field. exact Hnz.
Qed.

Lemma py_sum_total_from a (l : list Q) : foldl Qplus a l == a + total l.
Proof.
  revert a. induction l as [|x l IH]; intros a; simpl.
  - ring.
  - rewrite IH. ring.
Qed.

(** What line 64 computes is the arithmetic mean. *)
Lemma average_arithmetic_mean (l : list Q) : average l == arithmetic_mean l.
Proof.
  unfold average, arithmetic_mean, py_sum. rewrite py_sum_total_from.
  apply Qdiv_comp; [ring|reflexivity].
Qed.

(** * The claims *)

(** ** C1: invalid configurations *)

(** C1, as stated, does not hold: on a 2x2 image with [patch_size = 4] the
    routine does fail, but the baseline forward pass has already run. *)
Lemma oversized_patch_scored_first :
  ¬ fails_before_scoring (s0 img22)
      (generate_attribution 0%nat 0 (pure_module two_pixel_model) 4 2 (1 # 20)
         (s0 img22)).
Proof. intros [_ Hlog]. vm_compute in Hlog. discriminate Hlog. Qed.

(** C1 (amended): if [H] or [W] is smaller than [patch_size], or
    [patch_size] or [num_samples] is non-positive, [generate_attribution]
    returns no heatmap: it raises [ZeroDivisionError] or [RuntimeError] -
    there is no dedicated configuration error - and it does so after
    exactly one forward pass, the baseline pass on the image; no clone is
    made and nothing else is scored. *)
Theorem invalid_configuration_raises_after_baseline
    f c sc image img patch_size num_samples delta h g lg :
  scores f c sc →
  h !! image = Some img →
  (Z.of_nat (height img) < patch_size ∨ Z.of_nat (width img) < patch_size
   ∨ patch_size ≤ 0 ∨ num_samples ≤ 0)%Z →
  ∃ e,
    generate_attribution image c (pure_module f) patch_size num_samples delta
      (State h g lg)
    = (Raise e, State h g (lg ++ [(img, false)]))
    ∧ (e = ZeroDivisionError ∨ ∃ msg, e = RuntimeError msg).
Proof.
  intros Hsc Himg Hbad. rewrite generate_attribution_row_major.
  set (nh := (Z.of_nat (height img) / patch_size)%Z).
  set (nw := (Z.of_nat (width img) / patch_size)%Z).
  destruct (decide (patch_size = 0%Z)) as [Hz|Hnz].
  { exists ZeroDivisionError. split; [|by left].
    by eapply attribution_zero_patch. }
  destruct (decide (nh < 0 ∨ nw < 0)%Z) as [Hneg|Hpos].
  { destruct (attribution_negative_grid f c sc Hsc image img patch_size
                num_samples delta h g lg row_major Himg Hnz Hneg) as [msg Hmsg].
    exists (RuntimeError msg). split; [done|right; eauto]. }
  destruct (decide (nh = 0 ∨ nw = 0)%Z) as [Hempty|Hfull].
  { destruct (attribution_empty_grid f c sc Hsc image img patch_size
                num_samples delta h g lg Himg Hnz) as [msg Hmsg]; [fold nh; lia|fold nw; lia|done|].
    exists (RuntimeError msg). split; [done|right; eauto]. }
  assert (0 < nh ∧ 0 < nw)%Z as [Hnh Hnw] by lia.
  assert (num_samples ≤ 0)%Z as Hn.
  { destruct (Z.lt_trichotomy patch_size 0) as [Hlt|[?|Hgt]]; [|done|].
    - pose proof (Z.div_mod (Z.of_nat (height img)) patch_size Hnz).
      pose proof (Z.mod_neg_bound (Z.of_nat (height img)) patch_size Hlt).
      fold nh in H. nia.
    - destruct Hbad as [Hb|[Hb|[Hb|Hb]]]; [| |lia|done].
      + unfold nh in Hnh. rewrite Z.div_small in Hnh by lia. lia.
      + unfold nw in Hnw. rewrite Z.div_small in Hnw by lia. lia. }
  exists ZeroDivisionError. split; [|by left].
  by eapply attribution_no_sample.
Qed.

Lemma invalid_configuration_raises_after_baseline_witness :
  ∃ e,
    generate_attribution 0%nat 0 (pure_module two_pixel_model) 4 2 (1 # 20)
      (State [img22] true [])
    = (Raise e, State [img22] true ([] ++ [(img22, false)]))
    ∧ (e = ZeroDivisionError ∨ ∃ msg, e = RuntimeError msg).
Proof.
  apply (invalid_configuration_raises_after_baseline two_pixel_model 0
           score_two_pixels 0%nat img22 4 2 (1 # 20) [img22] true []).
  - intros t. by eexists.
  - reflexivity.
  - left. simpl. lia.
Defined.

(** ** C2: the value of a patch before normalisation *)

(** C2: for a positive [patch_size] and [num_samples] and every patch
    [(i, j)] of the [H // patch_size] by [W // patch_size] grid (whether or
    not [patch_size] divides [H] and [W]):
    - the baseline probability [p0] is the score of the unmodified image,
      computed by one forward pass with gradients disabled;
    - the patch loops, started on the zero grid, return [raw_heatmap];
      every later forward pass runs on a clone, with gradients disabled;
    - the routine returns the upsampled normalisation of [raw_heatmap];
    - entry [(i, j)] of that grid is the arithmetic mean of [num_samples]
      copies of [(score(perturbed) - p0) / delta] - their sum divided by
      their number - and so equals that quotient itself;
    - [perturbed] is the image with [delta] added to the pixels of the patch
      region, in every channel, and equal to the image elsewhere. *)
Theorem patch_value_is_mean_effect
    f c sc image img patch_size num_samples delta h g lg (i j : nat) :
  scores f c sc →
  h !! image = Some img →
  (0 < patch_size)%Z →
  (0 < num_samples)%Z →
  (Z.of_nat i < Z.of_nat (height img) / patch_size)%Z →
  (Z.of_nat j < Z.of_nat (width img) / patch_size)%Z →
  let nh := (Z.of_nat (height img) / patch_size)%Z in
  let nw := (Z.of_nat (width img) / patch_size)%Z in
  let p0 := sc img in
  let pt := perturbed img patch_size delta (Z.of_nat i) (Z.of_nat j) in
  let raw := raw_heatmap sc img patch_size num_samples delta in
  let cl := clones img patch_size num_samples delta (row_major nh nw) in
  let s1 := State h g (lg ++ [(img, false)]) in
  let s2 := State (h ++ cl) g (lg ++ (img, false) :: (no_grad_pass <$> cl)) in
  class_prob (pure_module f) image c (State h g lg) = (Ok p0, s1)
  ∧ patch_sweep (pure_module f) image c patch_size num_samples delta p0 nh nw
      (replicate (Z.to_nat nh) (replicate (Z.to_nat nw) 0%Q)) s1
    = (Ok raw, s2)
  ∧ generate_attribution image c (pure_module f) patch_size num_samples delta
      (State h g lg)
    = (Ok (upsample (height img) (width img) (normalized raw)), s2)
  ∧ (∃ v, lookup2 raw i j = Some v
          ∧ v == arithmetic_mean
                  (replicate (Z.to_nat num_samples) ((sc pt - p0) / delta)%Q)
          ∧ v == (sc pt - p0) / delta)
  ∧ (∀ ch y x, y < height img → x < width img →
       in_patch patch_size (Z.of_nat i) (Z.of_nat j) y x →
       pixel pt ch y x = (λ v, (v + delta)%Q) <$> pixel img ch y x)
  ∧ (∀ ch y x,
       ¬ in_patch patch_size (Z.of_nat i) (Z.of_nat j) y x →
       pixel pt ch y x = pixel img ch y x).
Proof.
  intros Hsc Himg Hp Hn Hi Hj nh nw p0 pt raw cl s1 s2.
  assert (0 < nh)%Z as Hnh by (unfold nh; lia).
  assert (0 < nw)%Z as Hnw by (unfold nw; lia).
  assert (patch_size ≤ Z.of_nat (height img))%Z as HpH.
  { destruct (Z.le_gt_cases patch_size (Z.of_nat (height img))); [done|].
    unfold nh in Hnh. rewrite Z.div_small in Hnh by lia. lia. }
  assert (patch_size ≤ Z.of_nat (width img))%Z as HpW.
  { destruct (Z.le_gt_cases patch_size (Z.of_nat (width img))); [done|].
    unfold nw in Hnw. rewrite Z.div_small in Hnw by lia. lia. }
  assert (Hrm : ∀ i j, (i, j) ∈ row_major nh nw → (0 ≤ i < nh)%Z ∧ (0 ≤ j < nw)%Z)
    by (by intros ? ? ?%elem_of_row_major).
  split; [by apply class_prob_run|].
  split.
  { rewrite patch_sweep_row_major. subst p0 s1 s2 raw cl.
    erewrite sweep_run; [|done..|apply rect_replicate|].
    - by rewrite <- app_assoc.
    - intros i' j' Hij. apply Hrm in Hij. lia. }
  split.
  { rewrite generate_attribution_row_major.
    by apply (attribution_run f c sc Hsc image img patch_size num_samples delta
                row_major h g lg). }
  split.
  { eexists. split; [by apply lookup2_raw_heatmap|].
    unfold patch_value, elementary_effect. fold pt p0. split.
    - apply average_arithmetic_mean.
    - apply average_replicate. lia. }
  split.
  - intros ch y x Hy Hx Hin. apply pixel_perturbed_inside; (done || lia).
  - intros ch y x Hout. apply pixel_perturbed_outside; (done || lia).
Qed.

Lemma patch_value_is_mean_effect_witness :
  ∃ v, lookup2 (raw_heatmap score_two_pixels img22 1 2 (1 # 20)) 0 1 = Some v
       ∧ v == arithmetic_mean
               (replicate 2
                  ((score_two_pixels (perturbed img22 1 (1 # 20) 0 1)
                    - score_two_pixels img22) / (1 # 20))%Q)
       ∧ v == (score_two_pixels (perturbed img22 1 (1 # 20) 0 1)
               - score_two_pixels img22) / (1 # 20).
Proof.
  refine (proj1 (proj2 (proj2 (proj2
    (patch_value_is_mean_effect two_pixel_model 0 score_two_pixels 0%nat img22
       1 2 (1 # 20) [img22] true [] 0 1 _ _ _ _ _ _))))).
  - intros t. by eexists.
  - reflexivity.
  - lia.
  - lia.
  - vm_compute. reflexivity.
  - vm_compute. reflexivity.
Defined.

(** ** C3: absolute value and min-max normalisation *)

(** C3: on a grid with at least one entry, lines 67-74 first take absolute
    values; [heat_min] and [heat_max] are the least and the greatest of
    them; if their difference is at most [1e-8] every entry becomes [0],
    and otherwise every entry [v] becomes
    [(v - heat_min) / (heat_max - heat_min)], so that the greatest one
    becomes [1] and the grid is not zeroed.  Neither case raises. *)
Theorem normalize_abs_then_minmax (heatmap : grid) s :
  concat heatmap ≠ [] →
  let a := grid_map Qabs heatmap in
  let heat_min := flat_min (concat a) in
  let heat_max := flat_max (concat a) in
  (heat_min ∈ concat a ∧ ∀ v, v ∈ concat a → (heat_min <= v)%Q)
  ∧ (heat_max ∈ concat a ∧ ∀ v, v ∈ concat a → (v <= heat_max)%Q)
  ∧ ((heat_max - heat_min <= eps)%Q →
       normalize heatmap s = (Ok (grid_map (λ _, 0%Q) a), s))
  ∧ (¬ (heat_max - heat_min <= eps)%Q →
       let scaled :=
         grid_map (λ v, ((v - heat_min) / (heat_max - heat_min))%Q) a in
       normalize heatmap s = (Ok scaled, s)
       ∧ ∃ v, v ∈ concat scaled ∧ v == 1).
Proof.
  intros Hne a heat_min heat_max.
  assert (concat a ≠ []) as Hne'.
  { unfold a. rewrite concat_grid_map. by destruct (concat heatmap). }
  split; [by apply flat_min_spec|]. split; [by apply flat_max_spec|].
  rewrite normalize_run by done. unfold normalized. fold a heat_min heat_max.
  split.
  - intros Hle. apply Qgtb_false in Hle. by rewrite Hle.
  - intros Hgt. destruct (Qgtb (heat_max - heat_min) eps) eqn:Hb.
    + split; [done|]. apply Qgtb_true in Hb. pose proof eps_pos as Heps.
      exists ((heat_max - heat_min) / (heat_max - heat_min))%Q. split.
      * rewrite concat_grid_map. apply list_elem_of_fmap.
        exists heat_max. split; [done|]. by apply flat_max_spec.
      * field. lra.
    + by apply Qgtb_false in Hb.
Qed.

Lemma normalize_abs_then_minmax_witness :
  let a := grid_map Qabs sample_grid in
  let heat_min := flat_min (concat a) in
  let heat_max := flat_max (concat a) in
  normalize sample_grid (s0 img22)
  = (Ok (grid_map (λ v, ((v - heat_min) / (heat_max - heat_min))%Q) a), s0 img22).
Proof.
  refine (proj1 (proj2 (proj2 (proj2
    (normalize_abs_then_minmax sample_grid (s0 img22) _))) _)).
  - discriminate.
  - vm_compute. intros H. apply H. reflexivity.
Defined.

(** ** C4: shape and range of the output *)


(** For a valid configuration the run succeeds and every value of the
    output lies in [0, 1]; when the image is at least two pixels high and
    wide, the output is the [H] by [W] bilinear upsampling of the normalised
    grid. *)
Lemma heatmap_in_unit_interval f c sc image img patch_size num_samples delta h g lg :
  scores f c sc →
  h !! image = Some img →
  (0 < patch_size ≤ Z.of_nat (height img))%Z →
  (patch_size ≤ Z.of_nat (width img))%Z →
  (0 < num_samples)%Z →
  let up := interpolate_bilinear
              (normalized (raw_heatmap sc img patch_size num_samples delta))
              (height img) (width img) in
  ∃ arr s',
    generate_attribution image c (pure_module f) patch_size num_samples delta
      (State h g lg) = (Ok arr, s')
    ∧ (∀ v, v ∈ values arr → unit_interval v)
    ∧ rect (height img) (width img) up
    ∧ (2 ≤ height img → 2 ≤ width img → arr = Mat up).
Proof.
  intros Hsc Himg Hp HpW Hn up. eexists _, _. split.
  { rewrite generate_attribution_row_major.
    apply (attribution_run f c sc Hsc image img patch_size num_samples delta
             row_major h g lg); try done.
    by intros ? ? ?%elem_of_row_major. }
  split; [|split].
  - apply upsample_unit_interval, normalized_unit_interval.
  - apply rect_interpolate.
  - intros HH HW. unfold upsample. by rewrite squeeze_matrix.
Qed.

(** C4 fails on an image of height one: [squeeze()] drops every dimension
    of size one, so a [1 x 2] image yields a vector of two values and not a
    2-D array of shape [(1, 2)], against the comment on line 79 and the
    docstring of the routine. *)
Theorem height_one_heatmap_is_a_vector :
  ∃ l s',
    generate_attribution 0%nat 0 (pure_module two_pixel_model) 1 1 (1 # 20)
      (s0 img12) = (Ok (Vec l), s')
    ∧ length l = 2%nat.
Proof. eexists _, _. split; [vm_compute; reflexivity|reflexivity]. Qed.

(** ** C5: a constant score *)



(** ** C6: the order in which patches are visited *)

(** C6: for a valid configuration and a scoring function that succeeds,
    visiting the patches in any permutation of the row-major order returns
    the same heatmap as [generate_attribution]. *)
Theorem patch_order_is_irrelevant
    f c sc image img patch_size num_samples delta h g lg
    (order : Z → Z → list (Z * Z)) :
  scores f c sc →
  h !! image = Some img →
  (0 < patch_size ≤ Z.of_nat (height img))%Z →
  (patch_size ≤ Z.of_nat (width img))%Z →
  (0 < num_samples)%Z →
  (∀ nh nw, order nh nw ≡ₚ row_major nh nw) →
  ∃ arr s1 s2,
    generate_attribution image c (pure_module f) patch_size num_samples delta
      (State h g lg) = (Ok arr, s1)
    ∧ generate_attribution_in order image c (pure_module f) patch_size
        num_samples delta (State h g lg) = (Ok arr, s2).
Proof.
  intros Hsc Himg Hp HpW Hn Hperm.
  set (nh := (Z.of_nat (height img) / patch_size)%Z).
  set (nw := (Z.of_nat (width img) / patch_size)%Z).
  assert (Hin : ∀ i j, (i, j) ∈ order nh nw ↔ (i, j) ∈ row_major nh nw).
  { intros i j. by rewrite (Hperm nh nw). }
  assert (Heq : swept sc img patch_size num_samples delta (order nh nw)
                  (replicate (Z.to_nat nh) (replicate (Z.to_nat nw) 0%Q))
                = swept sc img patch_size num_samples delta (row_major nh nw)
                    (replicate (Z.to_nat nh) (replicate (Z.to_nat nw) 0%Q))).
  { eapply grid_eq; [apply rect_swept, rect_replicate..|].
    intros y x. rewrite !lookup2_swept.
    - destruct (lookup2 _ y x); simpl; [|done]. f_equal.
      destruct (decide (_ ∈ order nh nw)) as [Ho|Ho],
               (decide (_ ∈ row_major nh nw)) as [Hr|Hr];
        try done; by apply Hin in Ho || by apply Hin in Hr.
    - intros i j Hij%elem_of_row_major. lia.
    - intros i j Hij%Hin%elem_of_row_major. lia. }
  eexists _, _, _. split.
  { rewrite generate_attribution_row_major.
    apply (attribution_run f c sc Hsc image img patch_size num_samples delta
             row_major h g lg); try done.
    by intros ? ? ?%elem_of_row_major. }
  rewrite (attribution_run f c sc Hsc image img patch_size num_samples delta
             order h g lg); try done.
  - fold nh nw. by rewrite Heq.
  - intros i j Hij%Hin. by apply elem_of_row_major.
Qed.

Lemma patch_order_is_irrelevant_witness :
  ∃ arr s1 s2,
    generate_attribution 0%nat 0 (pure_module two_pixel_model) 1 2 (1 # 20)
      (State [img22] true []) = (Ok arr, s1)
    ∧ generate_attribution_in reversed 0%nat 0 (pure_module two_pixel_model) 1 2
        (1 # 20) (State [img22] true []) = (Ok arr, s2).
Proof.
  apply (patch_order_is_irrelevant two_pixel_model 0 score_two_pixels 0%nat img22
           1 2 (1 # 20) [img22] true [] reversed).
  - intros t. by eexists.
  - reflexivity.
  - simpl. lia.
  - simpl. lia.
  - lia.
  - intros nh nw. unfold reversed. apply reverse_Permutation.
Defined.

(** ** C7: determinism *)

(** C7: with a deterministic scoring function - one whose outcome is a
    function of the contents of its input - two invocations on images with
    the same contents, the same target class and the same parameters end
    with the same outcome (the same heatmap, value for value, or the same
    exception), whatever else the two stores hold.  In particular a second
    invocation, run in the state the first one leaves behind, repeats the
    outcome of the first. *)
Theorem same_inputs_same_heatmap
    f c patch_size num_samples delta image1 image2 img s1 s2 :
  heap s1 !! image1 = Some img →
  heap s2 !! image2 = Some img →
  let run1 := generate_attribution image1 c (pure_module f) patch_size
                num_samples delta s1 in
  let run2 := generate_attribution image2 c (pure_module f) patch_size
                num_samples delta s2 in
  run1.1 = run2.1
  ∧ (generate_attribution image1 c (pure_module f) patch_size num_samples delta
       run1.2).1 = run1.1.
Proof.
  intros H1 H2 run1 run2.
  destruct (agree_generate_attribution f c image1 image2 img patch_size
              num_samples delta s1 s2 H1 H2) as (Heq & Hkept & _).
  split; [done|].
  by destruct (agree_generate_attribution f c image1 image1 img patch_size
                 num_samples delta run1.2 s1 Hkept H1) as (-> & _ & _).
Qed.

Lemma same_inputs_same_heatmap_witness :
  (generate_attribution 0%nat 0 (pure_module two_pixel_model) 1 2 (1 # 20)
     (State [img22] true [])).1
  = (generate_attribution 1%nat 0 (pure_module two_pixel_model) 1 2 (1 # 20)
       (State [img33; img22; img12] false [(img12, true)])).1.
Proof.
  refine (proj1 (same_inputs_same_heatmap two_pixel_model 0 1 2 (1 # 20)
                   0%nat 1%nat img22 (State [img22] true [])
                   (State [img33; img22; img12] false [(img12, true)]) _ _)).
  - reflexivity.
  - reflexivity.
Defined.

(** ** C8: image sizes that the patch size does not divide *)

(** C8, as stated, does not hold: the pixels beyond the last full patch are
    read.  The 2 x 5 images [img25_a] and [img25_b] agree on the 2 x 4 block
    that patches of size 2 cover and differ in the last column only, and
    their heatmaps differ: the whole image is cloned and scored (lines 32,
    49 and 56).  With the score [px(0,0) * px(0,4) + px(0,2) / 4] the patch
    grid is [[1/2; 1/4]] for the first image and [[0; 1/4]] for the second,
    so the first row of the heatmap runs from 1 down to 0 for the first and
    from 0 up to 1 for the second. *)
Lemma remainder_pixels_change_the_heatmap :
  ¬ blind_to_remainder remainder_model 0 2 1 (1 # 20) img25_a img25_b.
Proof.
  intros Hblind. assert (Hsame : same_covered_block 2 img25_a img25_b).
  { split; [done|]. split; [done|]. intros ch y x Hy Hx.
    change (Z.of_nat (height img25_a) / 2 * 2)%Z with 2%Z in Hy.
    change (Z.of_nat (width img25_a) / 2 * 2)%Z with 4%Z in Hx.
    destruct ch as [|ch]; [|by destruct ch].
    destruct y as [|[|y]]; [| |lia];
      destruct x as [|[|[|[|x]]]]; try reflexivity; lia. }
  specialize (Hblind Hsame). vm_compute in Hblind. discriminate Hblind.
Qed.

(** C8 (amended): for a valid configuration - whether or not [patch_size]
    divides [H] and [W] -
    - the two floor divisions return [H // patch_size] and
      [W // patch_size], [torch.zeros] returns a grid of exactly that many
      rows and columns, the patch loops started on it return a grid [raw]
      of the same shape, and the routine returns the upsampled normalisation
      of [raw]: nothing raises, so no index is out of range;
    - the block of rows and columns that the patches cover lies inside the
      image, and the slice of every patch visited lies inside that block;
    - no pixel outside the block is perturbed: every tensor scored after
      the baseline is a clone of the size of the image that agrees with the
      image there.  Those pixels are part of every tensor that is scored;
    - for a 230 x 230 image and patch size 16 the grid is 14 x 14 and the
      block 224 x 224. *)
Theorem partial_patches_are_dropped
    f c sc image img patch_size num_samples delta h g lg :
  scores f c sc →
  h !! image = Some img →
  (0 < patch_size ≤ Z.of_nat (height img))%Z →
  (patch_size ≤ Z.of_nat (width img))%Z →
  (0 < num_samples)%Z →
  let H := Z.of_nat (height img) in
  let W := Z.of_nat (width img) in
  let nh := (H / patch_size)%Z in
  let nw := (W / patch_size)%Z in
  let cl := clones img patch_size num_samples delta (row_major nh nw) in
  let s1 := State h g (lg ++ [(img, false)]) in
  let s2 := State (h ++ cl) g (lg ++ (img, false) :: (no_grad_pass <$> cl)) in
  (∃ blank raw,
     py_floordiv H patch_size s1 = (Ok nh, s1)
     ∧ py_floordiv W patch_size s1 = (Ok nw, s1)
     ∧ zeros nh nw s1 = (Ok blank, s1)
     ∧ rect (Z.to_nat nh) (Z.to_nat nw) blank
     ∧ patch_sweep (pure_module f) image c patch_size num_samples delta (sc img)
         nh nw blank s1 = (Ok raw, s2)
     ∧ rect (Z.to_nat nh) (Z.to_nat nw) raw
     ∧ generate_attribution image c (pure_module f) patch_size num_samples delta
         (State h g lg)
       = (Ok (upsample (height img) (width img) (normalized raw)), s2))
  ∧ length cl = (Z.to_nat nh * Z.to_nat nw * Z.to_nat num_samples)%nat
  ∧ (nh * patch_size ≤ H ∧ nw * patch_size ≤ W)%Z
  ∧ (∀ i j, (i, j) ∈ row_major nh nw →
       (0 ≤ i * patch_size ∧ (i + 1) * patch_size ≤ nh * patch_size
        ∧ 0 ≤ j * patch_size ∧ (j + 1) * patch_size ≤ nw * patch_size)%Z)
  ∧ (∀ t, t ∈ cl →
       height t = height img ∧ width t = width img
       ∧ ∀ ch y x,
           (nh * patch_size ≤ Z.of_nat y ∨ nw * patch_size ≤ Z.of_nat x)%Z →
           pixel t ch y x = pixel img ch y x)
  ∧ (H = 230%Z → W = 230%Z → patch_size = 16%Z →
       nh = 14%Z ∧ nw = 14%Z
       ∧ (nh * patch_size)%Z = 224%Z ∧ (nw * patch_size)%Z = 224%Z).
Proof.
  intros Hsc Himg Hp HpW Hn H W nh nw cl s1 s2.
  assert (Hrm : ∀ i j, (i, j) ∈ row_major nh nw → (0 ≤ i < nh)%Z ∧ (0 ≤ j < nw)%Z)
    by (by intros ? ? ?%elem_of_row_major).
  assert (0 < nh)%Z as Hnh by (apply Z.div_str_pos; lia).
  assert (0 < nw)%Z as Hnw by (apply Z.div_str_pos; lia).
  split.
  { exists (replicate (Z.to_nat nh) (replicate (Z.to_nat nw) 0%Q)),
           (swept sc img patch_size num_samples delta (row_major nh nw)
              (replicate (Z.to_nat nh) (replicate (Z.to_nat nw) 0%Q))).
    unfold py_floordiv, zeros.
    destruct (Z.eqb_spec patch_size 0) as [?|_]; [lia|].
    destruct (Z.ltb_spec nh 0) as [?|_]; [lia|].
    destruct (Z.ltb_spec nw 0) as [?|_]; [lia|].
    split; [done|]. split; [done|]. split; [done|].
    split; [apply rect_replicate|].
    split.
    { rewrite patch_sweep_row_major. subst s1 s2 cl.
      erewrite sweep_run; [|done..|apply rect_replicate|].
      - by rewrite <- app_assoc.
      - intros i j Hij. apply Hrm in Hij. lia. }
    split; [apply rect_swept, rect_replicate|].
    rewrite generate_attribution_row_major.
    by apply (attribution_run f c sc Hsc image img patch_size num_samples delta
                row_major h g lg). }
  split; [unfold cl; by rewrite length_clones, length_row_major|].
  split.
  { pose proof (Z.mul_div_le H patch_size). pose proof (Z.mul_div_le W patch_size).
    unfold nh, nw. lia. }
  split.
  { intros i j [Hi Hj]%Hrm. nia. }
  split.
  { intros t (i & j & [Hi Hj]%Hrm & ->)%elem_of_clones.
    split; [done|]. split; [done|].
    intros ch y x Hout. apply pixel_perturbed_outside; [lia..|].
    intros [Hr Hc]. nia. }
  intros HH HW Hps. unfold nh, nw. rewrite HH, HW, Hps. done.
Qed.

Lemma partial_patches_are_dropped_witness :
  (∃ raw s2,
     patch_sweep (pure_module two_pixel_model) 0%nat 0 2 1 (1 # 20)
       (score_two_pixels img33) 1 1 [[0%Q]] (State [img33] true [(img33, false)])
     = (Ok raw, s2)
     ∧ rect 1 1 raw)
  ∧ ∀ t, t ∈ clones img33 2 1 (1 # 20) (row_major 1 1) →
      ∀ ch y x, (2 ≤ Z.of_nat y ∨ 2 ≤ Z.of_nat x)%Z →
        pixel t ch y x = pixel img33 ch y x.
Proof.
  pose proof (partial_patches_are_dropped two_pixel_model 0 score_two_pixels
                0%nat img33 2 1 (1 # 20) [img33] true []) as Hw.
  destruct Hw as ((blank & raw & _ & _ & Hzeros & _ & Hsweep & Hrect & _)
                  & _ & _ & _ & Hcl & _).
  - intros t. by eexists.
  - reflexivity.
  - simpl. lia.
  - simpl. lia.
  - lia.
  - split.
    + injection Hzeros as <-. exists raw. eexists. split; [exact Hsweep|exact Hrect].
    + intros t Ht ch y x Hout.
      destruct (Hcl t Ht) as (_ & _ & Hpix). apply Hpix. exact Hout.
Defined.

(** ** C9: the input image is not mutated *)

(** C9: if the scoring model leaves its input as it found it, the tensor
    that [image] refers to holds the same contents after the call as
    before, whether the call returns or raises: every write of the routine
    goes to a clone, and a clone is a new tensor. *)
Theorem image_is_not_mutated model image c patch_size num_samples delta s img :
  leaves_input model →
  heap s !! image = Some img →
  heap (generate_attribution image c model patch_size num_samples delta s).2
    !! image = Some img.
Proof.
  intros Hmodel Himg.
  by destruct (keeps_generate_attribution model Hmodel image img c patch_size
                 num_samples delta s Himg).
Qed.

Lemma image_is_not_mutated_witness :
  heap (generate_attribution 0%nat 0 (pure_module two_pixel_model) 1 2 (1 # 20)
          (s0 img22)).2 !! 0%nat = Some img22.
Proof.
  apply (image_is_not_mutated (pure_module two_pixel_model) 0%nat 0 1 2 (1 # 20)
           (s0 img22) img22).
  - intros t. reflexivity.
  - reflexivity.
Defined.

(** ** C10: Grad-CAM's choice of the target layer *)

(** C10: with [target_layer = None], Grad-CAM runs on the layer of the
    first of the eight families (in the order tested) that the model is an
    instance of; if the model is an instance of none of them, the outcome is
    a [ValueError] whose message ends with the name of the model's class,
    and the attribution has not been run on any layer. *)
Theorem layer_dispatch {A : Type}
    (attribute : Grad_CAM.nn_module → Grad_CAM.layer → tensor → Z → result A)
    (image : tensor) (predicted_class : Z) (model : Grad_CAM.nn_module) :
  length Grad_CAM.families = 8%nat
  ∧ NoDup Grad_CAM.families
  ∧ Grad_CAM.generate_attribution attribute image predicted_class model None
    = match find (Grad_CAM.isinstance model) Grad_CAM.families with
      | Some k =>
          (attribute model (Grad_CAM.layer_of k) image predicted_class,
           [Grad_CAM.layer_of k])
      | None =>
          (Raise (ValueError (String.append "Unsupported model architecture: "
                                (Grad_CAM.type_name model))), [])
      end
  ∧ (find (Grad_CAM.isinstance model) Grad_CAM.families = None
     ↔ ∀ k, Grad_CAM.isinstance model k = false).
Proof.
  split; [done|]. split; [by apply (bool_decide_unpack _)|].
  split.
  - unfold Grad_CAM.generate_attribution, Grad_CAM.select_layer, Grad_CAM.families.
    cbn [find].
    repeat (match goal with
            | |- context [Grad_CAM.isinstance model ?k] =>
                destruct (Grad_CAM.isinstance model k); [reflexivity|]
            end).
    reflexivity.
  - split.
    + intros Hnone k. eapply find_none; [exact Hnone|].
      destruct k; simpl; tauto.
    + intros Hnone. unfold Grad_CAM.families. cbn [find]. by rewrite !Hnone.
Qed.

(** * Further properties of the code *)

(** ** Gradient mode and the log of forward passes *)

Lemma quiet_stateless {A : Type} (m : M A) : stateless m → quiet m.
Proof.
  intros [r Hr] s. rewrite Hr. split; [done|]. exists []. by rewrite app_nil_r.
Qed.

Lemma scoped_quiet {A : Type} (m : M A) : quiet m → scoped m.
Proof.
  intros Hm s. destruct (Hm s) as (Hg & new & Hlog & Hnew). split; [done|].
  exists new. split; [done|]. eapply Forall_impl; [exact Hnew|]. by left.
Qed.

Lemma quiet_bind {A B : Type} (m : M A) (k : A → M B) :
  quiet m → (∀ a, quiet (k a)) → quiet (bind m k).
Proof.
  intros Hm Hk s. destruct (Hm s) as (Hg & new & Hlog & Hnew). unfold bind.
  destruct (m s) as [[a|e] s1]; simpl in *.
  - destruct (Hk a s1) as (Hg' & new' & Hlog' & Hnew'). split; [congruence|].
    exists (new ++ new'). split; [by rewrite Hlog', Hlog, app_assoc|].
    by apply Forall_app.
  - split; [done|]. by exists new.
Qed.

Lemma scoped_bind {A B : Type} (m : M A) (k : A → M B) :
  scoped m → (∀ a, scoped (k a)) → scoped (bind m k).
Proof.
  intros Hm Hk s. destruct (Hm s) as (Hg & new & Hlog & Hnew). unfold bind.
  destruct (m s) as [[a|e] s1]; simpl in *.
  - destruct (Hk a s1) as (Hg' & new' & Hlog' & Hnew'). split; [congruence|].
    exists (new ++ new'). split; [by rewrite Hlog', Hlog, app_assoc|].
    apply Forall_app. split; [done|]. by rewrite <- Hg.
  - split; [done|]. by exists new.
Qed.

Lemma quiet_for_each {A S : Type} (xs : list A) (body : A → S → M S) acc :
  (∀ x acc, quiet (body x acc)) → quiet (for_each xs body acc).
Proof.
  intros Hbody. revert acc. induction xs as [|x xs IH]; intros acc; simpl.
  - apply quiet_stateless, stateless_ret.
  - apply quiet_bind; [apply Hbody|]. intros a. apply IH.
Qed.

Lemma scoped_forward model l : scoped (forward model l).
Proof.
  intros [h g lg]. unfold forward. simpl. destruct (h !! l) as [t|]; simpl.
  - destruct (model t) as [r t']. simpl. split; [done|].
    exists [(t, g)]. split; [done|]. apply Forall_singleton. by right.
  - split; [done|]. exists []. by rewrite app_nil_r.
Qed.

Lemma quiet_no_grad {A : Type} (m : M A) : scoped m → quiet (no_grad m).
Proof.
  intros Hm [h g lg]. unfold no_grad.
  destruct (Hm {| heap := h; grad_enabled := false; log := lg |})
    as (Hg & new & Hlog & Hnew).
  destruct (m _) as [r s1]. simpl in *. split; [done|].
  exists new. split; [done|]. eapply Forall_impl; [exact Hnew|].
  by intros e [?|?].
Qed.

Lemma quiet_deref l : quiet (deref l).
Proof.
  intros s. unfold deref. destruct (heap s !! l); simpl;
    (split; [done|]; exists []; by rewrite app_nil_r).
Qed.

Lemma quiet_clone l : quiet (clone l).
Proof.
  intros s. unfold clone, bind, deref. destruct (heap s !! l); simpl;
    (split; [done|]; exists []; by rewrite app_nil_r).
Qed.

Lemma quiet_iadd_slice l r0 r1 c0 c1 delta : quiet (iadd_slice l r0 r1 c0 c1 delta).
Proof.
  intros s. unfold iadd_slice, bind, deref, store. destruct (heap s !! l); simpl;
    (split; [done|]; exists []; by rewrite app_nil_r).
Qed.

Lemma quiet_randn H W noise : quiet (randn H W noise).
Proof.
  intros s. unfold randn. simpl. split; [done|]. exists []. by rewrite app_nil_r.
Qed.

Lemma quiet_class_prob model l c : quiet (class_prob model l c).
Proof.
  apply quiet_no_grad, scoped_bind; [apply scoped_forward|].
  intros probs. apply scoped_quiet, quiet_stateless. auto with stateless.
Qed.

Lemma stateless_torch_max_index output : stateless (torch_max_index output).
Proof.
  unfold torch_max_index. destruct output; [apply stateless_raise|apply stateless_ret].
Qed.

Lemma quiet_predict model l : quiet (predict model l).
Proof.
  apply quiet_no_grad, scoped_bind; [apply scoped_forward|].
  intros output. apply scoped_quiet, quiet_stateless, stateless_torch_max_index.
Qed.

Lemma quiet_generate_attribution image c model patch_size num_samples delta :
  quiet (generate_attribution image c model patch_size num_samples delta).
Proof.
  unfold generate_attribution.
  apply quiet_bind; [apply quiet_class_prob|]. intros orig_prob.
  apply quiet_bind; [apply quiet_deref|]. intros img.
  apply quiet_bind; [apply quiet_stateless; auto with stateless|]. intros nh.
  apply quiet_bind; [apply quiet_stateless; auto with stateless|]. intros nw.
  apply quiet_bind; [apply quiet_stateless; auto with stateless|]. intros hm.
  apply quiet_bind.
  { unfold patch_sweep. apply quiet_for_each. intros i acc.
    apply quiet_for_each. intros j acc'. unfold patch_body.
    apply quiet_bind.
    { apply quiet_for_each. intros _ effects. unfold sample_effect.
      apply quiet_bind; [apply quiet_clone|]. intros l.
      apply quiet_bind; [apply quiet_iadd_slice|]. intros _.
      apply quiet_bind; [apply quiet_class_prob|]. intros new_prob.
      apply quiet_stateless. auto with stateless. }
    intros effects. apply quiet_stateless.
    apply stateless_bind; auto with stateless. }
  intros hm'. apply quiet_stateless. apply stateless_bind; auto with stateless.
Qed.

(** X1: whatever the model does and however the call ends,
    [generate_attribution] and [warm_up] leave torch's gradient mode as they
    found it, and every forward pass they make runs with gradients
    disabled. *)
Theorem gradient_mode_is_scoped
    model image c patch_size num_samples delta noise (warm_model : torch_model) :
  quiet (generate_attribution image c model patch_size num_samples delta)
  ∧ quiet (warm_up noise warm_model).
Proof.
  split; [apply quiet_generate_attribution|].
  unfold warm_up. apply quiet_bind.
  { apply quiet_stateless. unfold first_device.
    destruct (devices warm_model); [apply stateless_raise|apply stateless_ret]. }
  intros device. apply quiet_bind; [apply quiet_randn|]. intros dummy_image.
  apply quiet_bind; [apply quiet_predict|]. intros predicted_class.
  apply quiet_bind; [apply quiet_generate_attribution|]. intros _.
  apply quiet_stateless, stateless_ret.
Qed.

(** ** A grid of one patch *)




(** ** Repeated samples *)

(** X3: the samples of a patch are all taken on the same perturbed image,
    so their average is the single elementary effect: for every positive
    [num_samples] the entry of patch [(i, j)] before normalisation equals
    (as a rational) [(score(perturbed) - p0) / delta], the value that
    [num_samples = 1] gives. *)
Theorem repeated_samples_are_redundant
    f c sc image img patch_size num_samples delta h g lg (i j : nat) :
  scores f c sc →
  h !! image = Some img →
  (0 < patch_size)%Z →
  (0 < num_samples)%Z →
  (Z.of_nat i < Z.of_nat (height img) / patch_size)%Z →
  (Z.of_nat j < Z.of_nat (width img) / patch_size)%Z →
  let nh := (Z.of_nat (height img) / patch_size)%Z in
  let nw := (Z.of_nat (width img) / patch_size)%Z in
  ∃ raw s',
    patch_sweep (pure_module f) image c patch_size num_samples delta (sc img)
      nh nw (replicate (Z.to_nat nh) (replicate (Z.to_nat nw) 0%Q))
      (State h g lg) = (Ok raw, s')
    ∧ ∃ v v1,
        lookup2 raw i j = Some v
        ∧ lookup2 (raw_heatmap sc img patch_size 1 delta) i j = Some v1
        ∧ v == v1
        ∧ v == (sc (perturbed img patch_size delta (Z.of_nat i) (Z.of_nat j))
                - sc img) / delta.
Proof.
  intros Hsc Himg Hp Hn Hi Hj nh nw.
  eexists _, _. split.
  { rewrite patch_sweep_row_major.
    eapply sweep_run; [done..|apply rect_replicate|].
    intros i' j' Hij%elem_of_row_major. lia. }
  fold (raw_heatmap sc img patch_size num_samples delta).
  eexists _, _. split; [by apply lookup2_raw_heatmap|].
  split; [by apply lookup2_raw_heatmap|].
  unfold patch_value, elementary_effect.
  rewrite !average_replicate by lia. split; reflexivity.
Qed.

Lemma repeated_samples_are_redundant_witness :
  ∃ raw s',
    patch_sweep (pure_module two_pixel_model) 0%nat 0 1 7 (1 # 20)
      (score_two_pixels img22) 2 2 (replicate 2 (replicate 2 0%Q))
      (State [img22] true []) = (Ok raw, s')
    ∧ ∃ v v1,
        lookup2 raw 0 1 = Some v
        ∧ lookup2 (raw_heatmap score_two_pixels img22 1 1 (1 # 20)) 0 1 = Some v1
        ∧ v == v1
        ∧ v == (score_two_pixels (perturbed img22 1 (1 # 20) 0 1)
                - score_two_pixels img22) / (1 # 20).
Proof.
  apply (repeated_samples_are_redundant two_pixel_model 0 score_two_pixels
           0%nat img22 1 7 (1 # 20) [img22] true [] 0 1).
  - intros t. by eexists.
  - reflexivity.
  - lia.
  - lia.
  - vm_compute. reflexivity.
  - vm_compute. reflexivity.
Defined.

(** ** The predicted class *)

Lemma first_max_from_spec row pre best_i best :
  pre !! best_i = Some best →
  (∀ v, v ∈ pre → (v <= best)%Q) →
  (∀ k v, k < best_i → pre !! k = Some v → (v < best)%Q) →
  let r := first_max_from best_i best (length pre) row in
  ∃ m, (pre ++ row) !! r = Some m
       ∧ (∀ v, v ∈ pre ++ row → (v <= m)%Q)
       ∧ (∀ k v, k < r → (pre ++ row) !! k = Some v → (v < m)%Q).
Proof.
  revert pre best_i best. induction row as [|x row IH]; intros pre best_i best Hb Hmax Hfirst.
  - simpl. rewrite app_nil_r. eauto.
  - cbn [first_max_from]. rewrite (cons_middle x pre row), app_assoc.
    replace (S (length pre)) with (length (pre ++ [x]))
      by (rewrite length_app; simpl; lia).
    destruct (Qgtb x best) eqn:Hgt.
    + apply Qgtb_true in Hgt. apply IH.
      * by apply list_lookup_middle.
      * intros v [Hv| ->%list_elem_of_singleton]%elem_of_app; [|apply Qle_refl].
        specialize (Hmax v Hv). lra.
      * intros k v Hk Hv. rewrite lookup_app_l in Hv by done.
        apply list_elem_of_lookup_2 in Hv. specialize (Hmax v Hv). lra.
    + apply Qgtb_false in Hgt. apply IH.
      * by apply lookup_app_l_Some.
      * intros v [Hv| ->%list_elem_of_singleton]%elem_of_app; [by apply Hmax|done].
      * intros k v Hk Hv. apply lookup_lt_Some in Hb.
        rewrite lookup_app_l in Hv by lia. by eapply Hfirst.
Qed.

Lemma first_max_spec row :
  row ≠ [] →
  ∃ m, row !! first_max row = Some m
       ∧ (∀ v, v ∈ row → (v <= m)%Q)
       ∧ (∀ k v, k < first_max row → row !! k = Some v → (v < m)%Q).
Proof.
  destruct row as [|x xs]; [done|]. intros _. unfold first_max.
  apply (first_max_from_spec xs [x] 0%nat x).
  - done.
  - intros v ->%list_elem_of_singleton. apply Qle_refl.
  - intros k v Hk. lia.
Qed.

Lemma py_index_of_nat {A : Type} (l : list A) i :
  i < length l → py_index l (Z.of_nat i) = l !! i.
Proof.
  intros Hi. unfold py_index. rewrite norm_index_nonneg by lia. simpl.
  by rewrite Nat2Z.id.
Qed.

Lemma predict_run f h g lg x t row :
  h !! x = Some t → f t = Ok row → row ≠ [] →
  predict (pure_module f) x (State h g lg)
  = (Ok (Z.of_nat (first_max row)), State h g (lg ++ [(t, false)])).
Proof.
  intros Hx Hf Hrow. unfold predict, no_grad, bind, forward, pure_module. simpl.
  rewrite Hx, Hf, list_insert_id by done. by destruct row.
Qed.



(** ** Warm-up *)

Lemma rows_of_length_scores f k c :
  rows_of_length f k → (0 ≤ c < Z.of_nat k)%Z → scores f c (class_score f c).
Proof.
  intros Hrows Hc t. destruct (Hrows t) as (probs & Hf & Hlen).
  exists probs. split; [done|]. unfold class_score. rewrite Hf.
  replace c with (Z.of_nat (Z.to_nat c)) by lia.
  rewrite py_index_of_nat by lia.
  destruct (lookup_lt_is_Some_2 probs (Z.to_nat c)) as [v Hv]; [lia|].
  by rewrite Hv.
Qed.

(** X5: the Morris [warm_up] first looks up the device of the model's
    first parameter: a model without parameters makes it raise
    [StopIteration] before anything is allocated or scored.  For a model
    with a parameter whose scoring function returns rows of one positive
    length, it returns normally on every draw of the dummy image: it
    allocates the 224 x 224 dummy image and 1960 clones of it, and makes
    1962 forward passes (one to classify, one baseline, and ten for each of
    the 14 x 14 patches), the first two on the dummy image itself. *)
Theorem warm_up_costs_1962_passes f k noise (model : torch_model) h g lg :
  net model = pure_module f →
  rows_of_length f k →
  (0 < k)%nat →
  let dummy := Tensor 224 224 noise in
  (devices model = [] →
   warm_up noise model (State h g lg) = (Raise StopIteration, State h g lg))
  ∧ (devices model ≠ [] →
     ∃ cl,
       warm_up noise model (State h g lg)
       = (Ok tt, State (h ++ dummy :: cl) g
                   (lg ++ (dummy, false) :: (dummy, false) :: (no_grad_pass <$> cl)))
       ∧ length cl = 1960%nat
       ∧ ∀ t, t ∈ cl → ∃ i j, (0 ≤ i < 14)%Z ∧ (0 ≤ j < 14)%Z
                              ∧ t = perturbed dummy 16 (1 # 20) i j).
Proof.
  intros Hnet Hrows Hk dummy. split.
  { intros Hnone. unfold warm_up. by rewrite Hnone. }
  intros Hsome. destruct (Hrows dummy) as (row & Hf & Hlen).
  assert (row ≠ []) as Hrow by (destruct row; simpl in *; [lia|done]).
  destruct (first_max_spec row Hrow) as (m & Hm & _).
  apply lookup_lt_Some in Hm.
  set (c := Z.of_nat (first_max row)).
  assert (scores f c (class_score f c)) as Hsc
    by (apply (rows_of_length_scores f k); [done|lia]).
  exists (clones dummy 16 10 (1 # 20) (row_major 14 14)).
  split; [|split].
  - unfold warm_up. rewrite Hnet.
    destruct (devices model) as [|device ds]; [done|].
    unfold first_device. unfold bind at 1, ret at 1.
    unfold bind at 1, randn at 1. cbn [heap grad_enabled log].
    erewrite bind_ok.
    2:{ apply (predict_run f _ _ _ _ dummy row); [|done..].
        by apply list_lookup_middle. }
    fold c. erewrite bind_ok.
    2:{ rewrite generate_attribution_row_major.
        apply (attribution_run f c _ Hsc (length h) dummy 16 10 (1 # 20)
                 row_major).
        - by apply list_lookup_middle.
        - simpl. lia.
        - simpl. lia.
        - lia.
        - by intros ? ? ?%elem_of_row_major. }
    unfold ret. cbn [height width]. change (Z.of_nat 224 / 16)%Z with 14%Z.
    by rewrite <- !app_assoc.
  - rewrite length_clones, length_row_major. reflexivity.
  - intros t (i & j & [Hi Hj]%elem_of_row_major & ->)%elem_of_clones.
    by exists i, j.
Qed.

Lemma warm_up_costs_1962_passes_witness :
  let dummy := Tensor 224 224 noise_224 in
  (devices three_way_net = [] →
   warm_up noise_224 three_way_net (State [img22] true [])
   = (Raise StopIteration, State [img22] true []))
  ∧ (devices three_way_net ≠ [] →
     ∃ cl,
       warm_up noise_224 three_way_net (State [img22] true [])
       = (Ok tt, State ([img22] ++ dummy :: cl) true
                   ([] ++ (dummy, false) :: (dummy, false) :: (no_grad_pass <$> cl)))
       ∧ length cl = 1960%nat
       ∧ ∀ t, t ∈ cl → ∃ i j, (0 ≤ i < 14)%Z ∧ (0 ≤ j < 14)%Z
                              ∧ t = perturbed dummy 16 (1 # 20) i j).
Proof.
  apply (warm_up_costs_1962_passes three_way_model 3 noise_224 three_way_net
           [img22] true []).
  - reflexivity.
  - intros t. by eexists.
  - lia.
Defined.

(** ** The timing harness *)

Section harness.
Context {D L Mo A : Type} (call : Mo → module) (timer : nat → Q).
Context (process_data_tuple : D → Mo → M (loc * L)) (model : Mo).
Context (generate_attribution : loc → Z → Mo → M A).

Lemma timed_item_ok data_item times ticks s acc s' :
  timed_item call timer process_data_tuple model generate_attribution data_item
    (times, ticks) s = (Ok acc, s') →
  acc = (times ++ [(timer (S ticks) - timer ticks)%Q], S (S ticks)).
Proof.
  unfold timed_item, bind, ret. cbn [fst snd].
  destruct (process_data_tuple data_item model s) as [[[image label]|e] s1]; [|done].
  cbn [fst]. destruct (predict (call model) image s1) as [[c|e] s2]; [|done].
  destruct (generate_attribution image c model s2) as [[a|e] s3]; [|done].
  by intros [= <- _].
Qed.

Lemma timed_loop_ok data_source times ticks s acc s' :
  for_each data_source
    (timed_item call timer process_data_tuple model generate_attribution)
    (times, ticks) s = (Ok acc, s') →
  acc = (times ++ ((λ k, (timer (S (ticks + 2 * k)) - timer (ticks + 2 * k)%nat)%Q)
                     <$> seq 0 (length data_source)),
         (ticks + 2 * length data_source)%nat).
Proof.
  revert times ticks s. induction data_source as [|d ds IH]; intros times ticks s.
  - simpl. intros [= <- _]. by rewrite app_nil_r, Nat.add_0_r.
  - cbn [for_each]. unfold bind at 1.
    destruct (timed_item _ _ _ _ _ d (times, ticks) s) as [[acc1|e] s1] eqn:Hd; [|done].
    apply timed_item_ok in Hd as ->. intros Hrest. apply IH in Hrest as ->.
    cbn [length seq]. rewrite fmap_cons, <- fmap_S_seq, <- list_fmap_compose.
    rewrite <- app_assoc. cbn [app]. f_equal; [|lia]. f_equal.
    rewrite Nat.mul_0_r, Nat.add_0_r. f_equal.
    apply list_fmap_ext. intros _ k _. simpl.
    by replace (ticks + S (k + S (k + 0)))%nat with (S (S (ticks + (k + (k + 0)))))
      by lia.
Qed.

(** X6: the timing harness (the same code in both files) raises
    [ZeroDivisionError] on an empty data source, without touching the
    state; and whenever it returns, the data source was not empty, [times]
    holds one duration per item, in order - the difference of the two timer
    readings taken around that item's attribution call - and the average is
    [sum(times) / len(times)]. *)
Theorem harness_reports_one_duration_per_item data_source s :
  (data_source = [] →
   measure_avg_time_across_images call timer process_data_tuple data_source
     model generate_attribution s = (Raise ZeroDivisionError, s))
  ∧ (∀ avg times s',
       measure_avg_time_across_images call timer process_data_tuple data_source
         model generate_attribution s = (Ok (avg, times), s') →
       data_source ≠ []
       ∧ times = durations timer (length data_source)
       ∧ avg = average times).
Proof.
  split; [by intros ->|].
  intros avg times s'. unfold measure_avg_time_across_images, bind at 1.
  destruct (for_each _ _ _ s) as [[acc|e] s1] eqn:Hloop; [|done].
  apply timed_loop_ok in Hloop as ->. cbn [fst app].
  unfold bind, py_truediv, ret.
  destruct (Z.eqb_spec (Z.of_nat (length ((λ k, (timer (S (0 + 2 * k))
             - timer (0 + 2 * k)%nat)%Q) <$> seq 0 (length data_source)))) 0)
    as [Hz|Hnz]; [done|].
  intros [= <- <- _]. split; [|done].
  intros ->. by apply Hnz.
Qed.

(** X7: nothing is caught: when the attribution call raises on some
    item, after the items before it went through, the harness ends with that
    exception in the state the call left; the durations measured so far and
    the remaining items are dropped. *)
Theorem harness_stops_at_first_failure
    before data_item after acc s s1 s2 s3 s4 image label predicted_class e :
  for_each before
    (timed_item call timer process_data_tuple model generate_attribution)
    ([], 0%nat) s = (Ok acc, s1) →
  process_data_tuple data_item model s1 = (Ok (image, label), s2) →
  predict (call model) image s2 = (Ok predicted_class, s3) →
  generate_attribution image predicted_class model s3 = (Raise e, s4) →
  measure_avg_time_across_images call timer process_data_tuple
    (before ++ data_item :: after) model generate_attribution s
  = (Raise e, s4).
Proof.
  intros Hbefore Hprocess Hpredict Hfail.
  unfold measure_avg_time_across_images.
  erewrite bind_raise; [done|]. rewrite for_each_app.
  erewrite bind_ok by exact Hbefore. cbn [for_each].
  erewrite bind_raise; [done|]. unfold timed_item.
  erewrite bind_ok by exact Hprocess. cbn [fst].
  erewrite bind_ok by exact Hpredict. by erewrite bind_raise.
Qed.

End harness.

Lemma harness_stops_at_first_failure_witness :
  ∃ msg s4,
    measure_avg_time_across_images id stopwatch stored_item [0%nat; 1%nat]
      (pure_module three_way_model) morris_default
      (State [img22; img_16_20] true [])
    = (Raise (RuntimeError msg), s4).
Proof.
  eexists _, _.
  apply (harness_stops_at_first_failure id stopwatch stored_item
           (pure_module three_way_model) morris_default
           [] 0%nat [1%nat] ([], 0%nat) (State [img22; img_16_20] true [])
           (State [img22; img_16_20] true [])
           (State [img22; img_16_20] true [])
           (State [img22; img_16_20] true [(img22, false)])
           _ 0%nat tt 1%Z).
  - reflexivity.
  - reflexivity.
  - reflexivity.
  - vm_compute. reflexivity.
Defined.

(** ** The harness on the Morris routine *)

Lemma py_sum_nonneg_from a (l : list Q) :
  (0 <= a)%Q → Forall (λ t, (0 <= t)%Q) l → (0 <= foldl Qplus a l)%Q.
Proof.
  intros Ha Hl. revert a Ha. induction Hl as [|x l Hx Hl IH]; intros a Ha; [done|].
  simpl. apply IH. lra.
Qed.

Lemma average_nonneg (l : list Q) :
  l ≠ [] → Forall (λ t, (0 <= t)%Q) l → (0 <= average l)%Q.
Proof.
  intros Hne Hl. unfold average, py_sum.
  apply Qle_shift_div_l.
  - change 0%Q with (inject_Z 0). rewrite <- Zlt_Qlt. destruct l; [done|simpl; lia].
  - rewrite Qmult_0_l. apply py_sum_nonneg_from; [lra|done].
Qed.

Lemma durations_nonneg timer n :
  (∀ k, (timer k <= timer (S k))%Q) → Forall (λ t, (0 <= t)%Q) (durations timer n).
Proof.
  intros Hmono. unfold durations. apply Forall_fmap, Forall_forall.
  intros k _. simpl. specialize (Hmono (2 * k)%nat). simpl in Hmono. lra.
Qed.

Lemma morris_loop_succeeds {D L : Type} f k timer
    (process_data_tuple : D → module → M (loc * L)) (ref : D → loc)
    data_source times ticks h g lg :
  rows_of_length f k →
  (0 < k)%nat →
  (∀ d s, ∃ label, process_data_tuple d (pure_module f) s = (Ok (ref d, label), s)) →
  (∀ d, d ∈ data_source →
        ∃ img, h !! ref d = Some img
               ∧ (16 ≤ height img)%nat ∧ (16 ≤ width img)%nat) →
  ∃ acc h' lg',
    for_each data_source
      (timed_item id timer process_data_tuple (pure_module f) morris_default)
      (times, ticks) (State h g lg)
    = (Ok acc, State (h ++ h') g lg').
Proof.
  intros Hrows Hk Hprocess. revert times ticks h lg.
  induction data_source as [|d ds IH]; intros times ticks h lg Himgs.
  - exists (times, ticks), [], lg. simpl. by rewrite app_nil_r.
  - destruct (Himgs d) as (img & Himg & HH & HW); [by left|].
    destruct (Hprocess d (State h g lg)) as [label Hd].
    destruct (Hrows img) as (row & Hf & Hlen).
    assert (row ≠ []) as Hrow by (destruct row; simpl in *; [lia|done]).
    destruct (first_max_spec row Hrow) as (m & Hm & _).
    apply lookup_lt_Some in Hm.
    set (c := Z.of_nat (first_max row)).
    assert (scores f c (class_score f c)) as Hsc
      by (apply (rows_of_length_scores f k); [done|lia]).
    set (cl := clones img 16 10 (1 # 20)
                 (row_major (Z.of_nat (height img) / 16) (Z.of_nat (width img) / 16))).
    destruct (IH (times ++ [(timer (S ticks) - timer ticks)%Q]) (S (S ticks))
                (h ++ cl)
                ((lg ++ [(img, false)]) ++ (img, false) :: (no_grad_pass <$> cl)))
      as (acc & h' & lg' & Hrest).
    { intros d' Hd'. destruct (Himgs d') as (img' & Himg' & Hdims); [by right|].
      exists img'. split; [by apply lookup_app_l_Some|done]. }
    exists acc, (cl ++ h'), lg'. cbn [for_each].
    erewrite bind_ok; [rewrite app_assoc; exact Hrest|].
    unfold timed_item. erewrite bind_ok by exact Hd. cbn [fst snd].
    erewrite bind_ok by (by apply (predict_run f _ _ _ _ img row)).
    fold c. unfold morris_default. erewrite bind_ok; [done|].
    rewrite generate_attribution_row_major.
    apply (attribution_run f c _ Hsc (ref d) img 16 10 (1 # 20) row_major);
      try done; try lia.
    by intros ? ? ?%elem_of_row_major.
Qed.

(** X8: the harness on the Morris routine.  Suppose the scoring function
    returns rows of one positive length, [process_data_tuple] hands back a
    stored image for each item without touching the state, and every image
    is at least 16 pixels high and wide (the default patch size).  Then on a
    non-empty data source the harness returns normally with the durations
    and their average; with a timer that never runs backwards none of them
    is negative; the tensors that were stored before the call hold what they
    held, and the gradient mode is as before. *)
Theorem morris_measurement_succeeds {D L : Type} f k timer
    (process_data_tuple : D → module → M (loc * L)) (ref : D → loc)
    data_source h g lg :
  rows_of_length f k →
  (0 < k)%nat →
  (∀ d s, ∃ label, process_data_tuple d (pure_module f) s = (Ok (ref d, label), s)) →
  (∀ d, d ∈ data_source →
        ∃ img, h !! ref d = Some img
               ∧ (16 ≤ height img)%nat ∧ (16 ≤ width img)%nat) →
  data_source ≠ [] →
  (∀ i, (timer i <= timer (S i))%Q) →
  let times := durations timer (length data_source) in
  ∃ s',
    measure_avg_time_across_images id timer process_data_tuple data_source
      (pure_module f) morris_default (State h g lg)
    = (Ok (average times, times), s')
    ∧ Forall (λ t, (0 <= t)%Q) times
    ∧ (0 <= average times)%Q
    ∧ (∀ l t, h !! l = Some t → heap s' !! l = Some t)
    ∧ grad_enabled s' = g.
Proof.
  intros Hrows Hk Hprocess Himgs Hne Hmono times.
  destruct (morris_loop_succeeds f k timer process_data_tuple ref data_source
              [] 0%nat h g lg Hrows Hk Hprocess Himgs) as (acc & h' & lg' & Hloop).
  pose proof (timed_loop_ok _ _ _ _ _ _ _ _ _ _ _ Hloop) as ->.
  assert (length times ≠ 0%nat) as Hlen.
  { unfold times, durations. rewrite length_fmap, length_seq. by destruct data_source. }
  exists (State (h ++ h') g lg'). split; [|split; [|split; [|split]]].
  - unfold measure_avg_time_across_images. erewrite bind_ok by exact Hloop.
    cbn [fst app].
    change ((λ k0 : nat, (timer (S (0 + 2 * k0)) - timer (0 + 2 * k0)%nat)%Q)
              <$> seq 0 (length data_source)) with times.
    unfold bind, py_truediv, ret.
    destruct (Z.eqb_spec (Z.of_nat (length times)) 0) as [?|_]; [lia|].
    reflexivity.
  - by apply durations_nonneg.
  - apply average_nonneg; [|by apply durations_nonneg].
    intros Hnil. by rewrite Hnil in Hlen.
  - intros l t Hl. simpl. by apply lookup_app_l_Some.
  - done.
Qed.

Lemma morris_measurement_succeeds_witness :
  let times := durations stopwatch (length [0%nat; 0%nat]) in
  ∃ s',
    measure_avg_time_across_images id stopwatch stored_item [0%nat; 0%nat]
      (pure_module three_way_model) morris_default (State [img_16_20] true [])
    = (Ok (average times, times), s')
    ∧ Forall (λ t, (0 <= t)%Q) times
    ∧ (0 <= average times)%Q
    ∧ (∀ l t, [img_16_20] !! l = Some t → heap s' !! l = Some t)
    ∧ grad_enabled s' = true.
Proof.
  apply (morris_measurement_succeeds three_way_model 3 stopwatch stored_item id
           [0%nat; 0%nat] [img_16_20] true []).
  - intros t. by eexists.
  - lia.
  - intros d s. by exists tt.
  - intros d Hd. exists img_16_20. split.
    + apply elem_of_cons in Hd as [->|Hd]; [reflexivity|].
      apply list_elem_of_singleton in Hd as ->. reflexivity.
    + simpl. lia.
  - discriminate.
  - intros i. unfold stopwatch. rewrite <- Zle_Qle. nia.
Defined.

(** ** Heatmaps as colour indices *)

Lemma astype_uint8_in_range x :
  (0 <= x <= 255)%Q → ∃ k, astype_uint8 x = Some k ∧ (0 ≤ k ≤ 255)%Z.
Proof.
  destruct x as [n d]. unfold Qle. simpl. intros [Hlo Hhi].
  unfold astype_uint8. simpl.
  rewrite Z.quot_div_nonneg by lia.
  assert (0 ≤ n / Z.pos d)%Z as Hk0 by (apply Z.div_pos; lia).
  assert (n / Z.pos d ≤ 255)%Z as Hk1 by (apply Z.div_le_upper_bound; lia).
  exists (n / Z.pos d)%Z.
  destruct (Z.leb_spec 0 (n / Z.pos d)); [|lia].
  destruct (Z.ltb_spec (n / Z.pos d) 256); [|lia]. done.
Qed.

Lemma unit_interval_colour v :
  unit_interval v → ∃ k, astype_uint8 (v * 255)%Q = Some k ∧ (0 ≤ k ≤ 255)%Z.
Proof. unfold unit_interval. intros Hv. apply astype_uint8_in_range. lra. Qed.

(** X9: every heatmap that [generate_attribution] returns for a valid
    configuration can be shown: the conversion on lines 126-127 of
    [visualize_attribution], [(heatmap_np * 255).astype(np.uint8)], is
    defined on each of its values and yields a colour index between 0 and
    255. *)
Theorem morris_heatmap_fits_uint8
    f c sc image img patch_size num_samples delta h g lg :
  scores f c sc →
  h !! image = Some img →
  (0 < patch_size ≤ Z.of_nat (height img))%Z →
  (patch_size ≤ Z.of_nat (width img))%Z →
  (0 < num_samples)%Z →
  ∃ arr s',
    generate_attribution image c (pure_module f) patch_size num_samples delta
      (State h g lg) = (Ok arr, s')
    ∧ length (heatmap_bytes arr) = length (values arr)
    ∧ ∀ b, b ∈ heatmap_bytes arr → ∃ k, b = Some k ∧ (0 ≤ k ≤ 255)%Z.
Proof.
  intros Hsc Himg Hp HpW Hn. eexists _, _. split.
  { rewrite generate_attribution_row_major.
    apply (attribution_run f c sc Hsc image img patch_size num_samples delta
             row_major h g lg); try done.
    by intros ? ? ?%elem_of_row_major. }
  unfold heatmap_bytes. split; [by rewrite length_fmap|].
  intros b (v & -> & Hv)%list_elem_of_fmap.
  apply unit_interval_colour.
  eapply upsample_unit_interval; [|exact Hv]. apply normalized_unit_interval.
Qed.

Lemma morris_heatmap_fits_uint8_witness :
  ∃ arr s',
    generate_attribution 0%nat 0 (pure_module two_pixel_model) 1 2 (1 # 20)
      (State [img22] true []) = (Ok arr, s')
    ∧ length (heatmap_bytes arr) = length (values arr)
    ∧ ∀ b, b ∈ heatmap_bytes arr → ∃ k, b = Some k ∧ (0 ≤ k ≤ 255)%Z.
Proof.
  apply (morris_heatmap_fits_uint8 two_pixel_model 0 score_two_pixels 0%nat
           img22 1 2 (1 # 20) [img22] true []).
  - intros t. by eexists.
  - reflexivity.
  - simpl. lia.
  - simpl. lia.
  - lia.
Defined.

(** ** Grad-CAM: the map that is shown *)

Lemma concat_fmap_rows {B : Type} (f : Q → B) (g : grid) :
  concat ((λ row : list Q, f <$> row) <$> g) = f <$> concat g.
Proof.
  induction g as [|row g IH]; [done|].
  rewrite fmap_cons. cbn [concat]. by rewrite fmap_app, IH.
Qed.

Lemma relu_normalize_run (attribution : grid) :
  concat attribution ≠ [] →
  let a := grid_map (λ v, Qmax v 0) attribution in
  Grad_CAM_run.relu_normalize attribution
  = Ok ((λ row : list Q,
           (λ v, Grad_CAM_run.np_divide v (flat_max (concat a))) <$> row) <$> a).
Proof.
  intros Hne a. unfold Grad_CAM_run.relu_normalize. fold a.
  assert (concat a ≠ []) as Hne'.
  { unfold a. rewrite concat_grid_map. by destruct (concat attribution). }
  unfold flat_max. by destruct (concat a).
Qed.

(** X10: when some entry of the Grad-CAM attribution is positive, lines
    96-98 of [visualize_attribution] map every entry to a number between 0
    and 1, the greatest to 1, and every entry gets a colour index between 0
    and 255. *)
Theorem grad_cam_map_is_normalised (attribution : grid) x :
  x ∈ concat attribution →
  (0 < x)%Q →
  ∃ shown,
    Grad_CAM_run.relu_normalize attribution = Ok shown
    ∧ length (concat shown) = length (concat attribution)
    ∧ (∀ e, e ∈ concat shown →
         ∃ v k, e = Some v ∧ unit_interval v
                ∧ Grad_CAM_run.colour_index e = Some k ∧ (0 ≤ k ≤ 255)%Z)
    ∧ ∃ v, Some v ∈ concat shown ∧ v == 1.
Proof.
  intros Hx Hpos.
  assert (concat attribution ≠ []) as Hne
    by (intros He; rewrite He in Hx; by apply not_elem_of_nil in Hx).
  rewrite relu_normalize_run by done. eexists. split; [reflexivity|].
  set (a := grid_map (λ v, Qmax v 0) attribution).
  set (peak := flat_max (concat a)).
  assert (concat a = (λ v, Qmax v 0) <$> concat attribution) as Ha
    by apply concat_grid_map.
  assert (concat a ≠ []) as Hne' by (rewrite Ha; by destruct (concat attribution)).
  destruct (flat_max_spec _ Hne') as [Hpeak Hmax]. fold peak in Hpeak, Hmax.
  assert (0 < peak)%Q as Hpeak_pos.
  { eapply Qlt_le_trans; [exact Hpos|]. eapply Qle_trans; [apply (Q.le_max_l x 0)|].
    apply Hmax. rewrite Ha. apply list_elem_of_fmap. eauto. }
  assert (Qeq_bool peak 0 = false) as Hnz.
  { destruct (Qeq_bool peak 0) eqn:Hb; [|done].
    apply Qeq_bool_iff in Hb. lra. }
  rewrite concat_fmap_rows. split; [by rewrite length_fmap, Ha, length_fmap|].
  split.
  - intros e (v & -> & Hv)%list_elem_of_fmap.
    unfold Grad_CAM_run.np_divide. rewrite Hnz.
    assert (unit_interval (v / peak)) as Hunit.
    { specialize (Hmax v Hv). rewrite Ha in Hv.
      apply list_elem_of_fmap in Hv as (u & -> & _).
      pose proof (Q.le_max_r u 0). split.
      - apply Qle_shift_div_l; lra.
      - apply Qle_shift_div_r; lra. }
    destruct (unit_interval_colour _ Hunit) as (k & Hk & Hrange).
    exists (v / peak)%Q, k. split; [done|]. split; [done|]. split; [exact Hk|done].
  - exists (peak / peak)%Q. split.
    + apply list_elem_of_fmap. exists peak. split; [|done].
      unfold Grad_CAM_run.np_divide. by rewrite Hnz.
    + field. lra.
Qed.

Lemma grad_cam_map_is_normalised_witness :
  ∃ shown,
    Grad_CAM_run.relu_normalize sample_grid = Ok shown
    ∧ length (concat shown) = length (concat sample_grid)
    ∧ (∀ e, e ∈ concat shown →
         ∃ v k, e = Some v ∧ unit_interval v
                ∧ Grad_CAM_run.colour_index e = Some k ∧ (0 ≤ k ≤ 255)%Z)
    ∧ ∃ v, Some v ∈ concat shown ∧ v == 1.
Proof.
  apply (grad_cam_map_is_normalised sample_grid (3 # 2)).
  - simpl. do 3 right. by left.
  - reflexivity.
Defined.

(** X11: when the Grad-CAM attribution has entries but none of them is
    positive, the division on line 97 is by zero: nothing is raised, and
    every entry of the map is a non-finite number, for which no colour index
    is defined. *)
Theorem grad_cam_map_without_positive_entry (attribution : grid) :
  concat attribution ≠ [] →
  (∀ x, x ∈ concat attribution → (x <= 0)%Q) →
  ∃ shown,
    Grad_CAM_run.relu_normalize attribution = Ok shown
    ∧ length (concat shown) = length (concat attribution)
    ∧ ∀ e, e ∈ concat shown → e = None ∧ Grad_CAM_run.colour_index e = None.
Proof.
  intros Hne Hneg. rewrite relu_normalize_run by done. eexists. split; [reflexivity|].
  set (a := grid_map (λ v, Qmax v 0) attribution).
  set (peak := flat_max (concat a)).
  assert (concat a = (λ v, Qmax v 0) <$> concat attribution) as Ha
    by apply concat_grid_map.
  assert (concat a ≠ []) as Hne' by (rewrite Ha; by destruct (concat attribution)).
  destruct (flat_max_spec _ Hne') as [Hpeak _]. fold peak in Hpeak.
  assert (Qeq_bool peak 0 = true) as Hz.
  { apply Qeq_bool_iff. rewrite Ha in Hpeak.
    apply list_elem_of_fmap in Hpeak as (u & -> & Hu).
    apply Q.max_r. by apply Hneg. }
  rewrite concat_fmap_rows. split; [by rewrite length_fmap, Ha, length_fmap|].
  intros e (v & -> & _)%list_elem_of_fmap.
  unfold Grad_CAM_run.np_divide. by rewrite Hz.
Qed.

Lemma grad_cam_map_without_positive_entry_witness :
  ∃ shown,
    Grad_CAM_run.relu_normalize [[(-1) # 2; 0]; [0; (-3) # 1]]%Q = Ok shown
    ∧ length (concat shown) = length (concat [[(-1) # 2; 0]; [0; (-3) # 1]]%Q)
    ∧ ∀ e, e ∈ concat shown → e = None ∧ Grad_CAM_run.colour_index e = None.
Proof.
  apply (grad_cam_map_without_positive_entry [[(-1) # 2; 0]; [0; (-3) # 1]]%Q).
  - discriminate.
  - intros x Hx. simpl in Hx.
    repeat (apply elem_of_cons in Hx as [->|Hx]; [by vm_compute|]).
    by apply not_elem_of_nil in Hx.
Defined.

(** ** Grad-CAM: warm-up *)

Lemma select_layer_find model :
  Grad_CAM.select_layer model
  = match find (Grad_CAM.isinstance model) Grad_CAM.families with
    | Some k => Ok (Grad_CAM.layer_of k)
    | None =>
        Raise (ValueError (String.append "Unsupported model architecture: "
                             (Grad_CAM.type_name model)))
    end.
Proof.
  unfold Grad_CAM.select_layer, Grad_CAM.families. cbn [find].
  repeat (match goal with
          | |- context [Grad_CAM.isinstance model ?k] =>
              destruct (Grad_CAM.isinstance model k); [reflexivity|]
          end).
  reflexivity.
Qed.

(** X12: the Grad-CAM [warm_up] first looks up the device of the model's
    first parameter, then classifies the dummy image, and looks at the class
    of the model only afterwards.  A model without parameters makes it raise
    [StopIteration] before any forward pass, whatever its class.  With a
    parameter, a model that is an instance of none of the eight families
    makes it raise the [ValueError] naming the class after one forward pass
    on the dummy image; otherwise it runs the attribution once, on the layer
    of the first family that matches, for the class of first greatest
    probability, and returns normally unless that run raises. *)
Theorem grad_cam_warm_up_outcome {A : Type}
    (attribute : Grad_CAM.nn_module → Grad_CAM.layer → tensor → Z → result A)
    noise model f row h g lg :
  net (Grad_CAM_run.base model) = pure_module f →
  f (Tensor 224 224 noise) = Ok row →
  row ≠ [] →
  let dummy := Tensor 224 224 noise in
  let cls := Grad_CAM_run.kind model in
  (devices (Grad_CAM_run.base model) = [] →
   Grad_CAM_run.warm_up attribute noise model (State h g lg)
   = (Raise StopIteration, State h g lg))
  ∧ (devices (Grad_CAM_run.base model) ≠ [] →
     Grad_CAM_run.warm_up attribute noise model (State h g lg)
     = (match find (Grad_CAM.isinstance cls) Grad_CAM.families with
        | Some k =>
            match attribute cls (Grad_CAM.layer_of k) dummy
                    (Z.of_nat (first_max row)) with
            | Ok _ => Ok tt
            | Raise e => Raise e
            end
        | None =>
            Raise (ValueError (String.append "Unsupported model architecture: "
                                 (Grad_CAM.type_name cls)))
        end,
        State (h ++ [dummy]) g (lg ++ [(dummy, false)]))).
Proof.
  intros Hnet Hf Hrow dummy cls. unfold Grad_CAM_run.warm_up. split.
  { intros Hnone. by rewrite Hnone. }
  intros Hsome. destruct (devices (Grad_CAM_run.base model)) as [|device ds]; [done|].
  unfold first_device. unfold bind at 1, ret at 1.
  unfold bind at 1, randn at 1. cbn [heap grad_enabled log]. rewrite Hnet.
  erewrite bind_ok.
  2:{ apply (predict_run f _ _ _ _ dummy row); [|done..].
      by apply list_lookup_middle. }
  unfold Grad_CAM_run.generate_attribution, Grad_CAM.generate_attribution.
  unfold bind, deref. cbn [heap]. rewrite list_lookup_middle by done.
  rewrite select_layer_find. fold cls.
  destruct (find (Grad_CAM.isinstance cls) Grad_CAM.families) as [k|]; [|done].
  cbn [fst]. subst dummy.
  by destruct (attribute cls (Grad_CAM.layer_of k) _ _).
Qed.

Lemma grad_cam_warm_up_outcome_witness :
  Grad_CAM_run.warm_up (λ _ _ _ _, Ok tt) noise_224 unknown_net
    (State [img22] true [])
  = (Raise (ValueError "Unsupported model architecture: MyNet"),
     State ([img22] ++ [Tensor 224 224 noise_224]) true
       ([] ++ [(Tensor 224 224 noise_224, false)])).
Proof.
  refine (proj2 (grad_cam_warm_up_outcome (λ _ _ _ _, Ok tt) noise_224 unknown_net
            three_way_model
            [score_two_pixels (Tensor 224 224 noise_224); 1 # 2;
             (1 # 2) - score_two_pixels (Tensor 224 224 noise_224)]%Q
            [img22] true [] _ _ _) _).
  - reflexivity.
  - reflexivity.
  - discriminate.
  - discriminate.
Defined.

(** ** Patches tile the covered block *)

Lemma in_patch_iff patch_size i j y x :
  (0 < patch_size)%Z →
  in_patch patch_size i j y x
  ↔ (i = Z.of_nat y / patch_size ∧ j = Z.of_nat x / patch_size)%Z.
Proof.
  intros Hp. unfold in_patch. split.
  - intros [Hr Hc]. split.
    + apply Z.div_unique with (Z.of_nat y - i * patch_size)%Z; lia.
    + apply Z.div_unique with (Z.of_nat x - j * patch_size)%Z; lia.
  - intros [-> ->].
    pose proof (Z.mul_div_le (Z.of_nat y) patch_size Hp).
    pose proof (Z.mul_succ_div_gt (Z.of_nat y) patch_size Hp).
    pose proof (Z.mul_div_le (Z.of_nat x) patch_size Hp).
    pose proof (Z.mul_succ_div_gt (Z.of_nat x) patch_size Hp).
    lia.
Qed.

(** X13: the patches do not overlap and leave no gap inside the block
    they cover.  The clone made for patch [(i, j)] differs from the image at
    pixel [(y, x)] - by [delta], in every channel - exactly when
    [(i, j) = (y // patch_size, x // patch_size)]; and that patch is visited
    by the loops exactly when [y < (H // patch_size) * patch_size] and
    [x < (W // patch_size) * patch_size]. *)
Theorem pixel_is_perturbed_by_its_own_patch
    img patch_size delta i j ch y x :
  (0 < patch_size)%Z →
  (0 ≤ i)%Z → (0 ≤ j)%Z →
  (y < height img)%nat → (x < width img)%nat →
  let nh := (Z.of_nat (height img) / patch_size)%Z in
  let nw := (Z.of_nat (width img) / patch_size)%Z in
  pixel (perturbed img patch_size delta i j) ch y x
  = (λ v, if decide (i = Z.of_nat y / patch_size ∧ j = Z.of_nat x / patch_size)%Z
          then (v + delta)%Q else v) <$> pixel img ch y x
  ∧ ((Z.of_nat y / patch_size, Z.of_nat x / patch_size)%Z ∈ row_major nh nw
     ↔ (Z.of_nat y < nh * patch_size ∧ Z.of_nat x < nw * patch_size)%Z).
Proof.
  intros Hp Hi Hj Hy Hx nh nw. split.
  - destruct (decide (i = _ ∧ j = _)%Z) as [Hown|Hother].
    + apply pixel_perturbed_inside; try done. by apply in_patch_iff.
    + rewrite pixel_perturbed_outside; try done.
      * by destruct (pixel img ch y x).
      * intros Hin. by apply in_patch_iff in Hin.
  - rewrite elem_of_row_major.
    pose proof (Z.div_pos (Z.of_nat y) patch_size ltac:(lia) Hp).
    pose proof (Z.div_pos (Z.of_nat x) patch_size ltac:(lia) Hp).
    pose proof (Z.mul_div_le (Z.of_nat y) patch_size Hp).
    pose proof (Z.mul_succ_div_gt (Z.of_nat y) patch_size Hp).
    pose proof (Z.mul_div_le (Z.of_nat x) patch_size Hp).
    pose proof (Z.mul_succ_div_gt (Z.of_nat x) patch_size Hp).
    split; intros [? ?]; split; nia.
Qed.

Lemma pixel_is_perturbed_by_its_own_patch_witness :
  pixel (perturbed img33 2 (1 # 20) 0 0) 0 1 1
  = (λ v, if decide (0 = Z.of_nat 1 / 2 ∧ 0 = Z.of_nat 1 / 2)%Z
          then (v + (1 # 20))%Q else v) <$> pixel img33 0 1 1
  ∧ ((Z.of_nat 1 / 2, Z.of_nat 1 / 2)%Z ∈ row_major (Z.of_nat 3 / 2) (Z.of_nat 3 / 2)
     ↔ (Z.of_nat 1 < Z.of_nat 3 / 2 * 2 ∧ Z.of_nat 1 < Z.of_nat 3 / 2 * 2)%Z).
Proof.
  apply (pixel_is_perturbed_by_its_own_patch img33 2 (1 # 20) 0 0 0%nat 1%nat 1%nat).
  - lia.
  - lia.
  - lia.
  - simpl. lia.
  - simpl. lia.
Defined.
